(** * Iterative name resolver: a shallow embedding of [idr_starter.py]

    The development follows the Python module function by function:
    the string helpers it relies on ([split], [join], [rstrip]), the
    insertion-ordered dictionaries that make up the global [cache], the
    message exchange [get_dns_record], the resolution loop [resolve] and
    the cache inspection commands [list_cache] and [remove_cache_N].

    The network and the system resolver are the two things the module
    does not own.  They are an interface ([Network]) whose answers the
    program cannot influence; every statement below holds for all of
    its implementations.  Console output is not part of the model. *)

From Stdlib Require Import String Ascii List ZArith Bool Lia.
Import ListNotations.
Open Scope string_scope.
Open Scope list_scope.

(** ** Strings *)

Definition is_dot (c : ascii) : bool := Ascii.eqb c ".".

(** [s.split('.')]: always at least one part. *)
Fixpoint split_dot (s : string) : list string :=
  match s with
  | EmptyString => [EmptyString]
  | String c s' =>
      if is_dot c then EmptyString :: split_dot s'
      else match split_dot s' with
           | p :: ps => String c p :: ps
           | [] => [String c EmptyString]
           end
  end.

(** ['.'.join(parts)] *)
Definition join_dot (parts : list string) : string := String.concat "." parts.

(** [s.rstrip('.')]: every trailing dot goes. *)
Fixpoint rstrip_dot (s : string) : string :=
  match s with
  | EmptyString => EmptyString
  | String c s' =>
      match rstrip_dot s' with
      | EmptyString => if is_dot c then EmptyString else String c EmptyString
      | r => String c r
      end
  end.

(** [x in names] for a list of strings. *)
Definition mem_str (x : string) (names : list string) : bool :=
  existsb (String.eqb x) names.

(** ** Python dictionaries with string keys

    A [dict] keeps its keys in insertion order; assigning to a key that
    is present replaces the value where it stands, assigning to a new key
    appends. *)

Module Dict.

Definition t (V : Type) : Type := list (string * V).

Fixpoint get {V} (k : string) (d : t V) : option V :=
  match d with
  | [] => None
  | (k', v) :: r => if String.eqb k k' then Some v else get k r
  end.

Definition mem {V} (k : string) (d : t V) : bool :=
  match get k d with Some _ => true | None => false end.

Fixpoint set {V} (k : string) (v : V) (d : t V) : t V :=
  match d with
  | [] => [(k, v)]
  | (k', v') :: r =>
      if String.eqb k k' then (k, v) :: r else (k', v') :: set k v r
  end.

Fixpoint del {V} (k : string) (d : t V) : t V :=
  match d with
  | [] => []
  | (k', v') :: r => if String.eqb k k' then r else (k', v') :: del k r
  end.

Definition keys {V} (d : t V) : list string := map fst d.

End Dict.

(** ** The cache

    [cache[domain]] is itself a dictionary with at most the three keys
    ["NS"], ["NS_IP"] and ["A"].  A bucket carries its key as its
    constructor, so that the value stored under ["NS_IP"] is a dictionary
    and the other two are lists, as in every store of the program. *)

Inductive kind : Type := K_NS | K_NS_IP | K_A.

Inductive bucket : Type :=
| NS (names : list string)
| NS_IP (glue : Dict.t (list string))
| A (ips : list string).

Definition kind_of (b : bucket) : kind :=
  match b with NS _ => K_NS | NS_IP _ => K_NS_IP | A _ => K_A end.

Definition kind_eqb (a b : kind) : bool :=
  match a, b with
  | K_NS, K_NS | K_NS_IP, K_NS_IP | K_A, K_A => true
  | _, _ => false
  end.

(** The records of one domain, in bucket insertion order. *)
Definition entry : Type := list bucket.

Definition Cache : Type := Dict.t entry.

Fixpoint entry_get (k : kind) (e : entry) : option bucket :=
  match e with
  | [] => None
  | b :: r => if kind_eqb k (kind_of b) then Some b else entry_get k r
  end.

Definition entry_mem (k : kind) (e : entry) : bool :=
  match entry_get k e with Some _ => true | None => false end.

(** [records[key] = value] *)
Fixpoint entry_set (b : bucket) (e : entry) : entry :=
  match e with
  | [] => [b]
  | b' :: r =>
      if kind_eqb (kind_of b) (kind_of b') then b :: r else b' :: entry_set b r
  end.

(** [del records[key]] *)
Fixpoint entry_del (k : kind) (e : entry) : entry :=
  match e with
  | [] => []
  | b :: r => if kind_eqb k (kind_of b) then r else b :: entry_del k r
  end.

(** [cache.get(domain, {})] *)
Definition cache_entry (domain : string) (c : Cache) : entry :=
  match Dict.get domain c with Some e => e | None => [] end.

(** [domain in cache and "NS" in cache[domain]], with [cache[domain]["NS"]] *)
Definition cache_NS (domain : string) (c : Cache) : option (list string) :=
  match entry_get K_NS (cache_entry domain c) with
  | Some (NS names) => Some names
  | _ => None
  end.

(** [cache[domain].get("NS_IP", {})] *)
Definition cache_NS_IP (domain : string) (c : Cache) : Dict.t (list string) :=
  match entry_get K_NS_IP (cache_entry domain c) with
  | Some (NS_IP glue) => glue
  | _ => []
  end.

(** [domain in cache and "A" in cache[domain]], with [cache[domain]["A"]] *)
Definition cache_A (domain : string) (c : Cache) : option (list string) :=
  match entry_get K_A (cache_entry domain c) with
  | Some (A ips) => Some ips
  | _ => None
  end.

(** [if domain not in cache: cache[domain] = {}] followed by
    [cache[domain][key] = value]. *)
Definition cache_store (domain : string) (b : bucket) (c : Cache) : Cache :=
  Dict.set domain (entry_set b (cache_entry domain c)) c.

(** ** Messages *)

Definition QTYPE_A : Z := 1.
Definition QTYPE_NS : Z := 2.
Definition QTYPE_CNAME : Z := 5.
Definition RCODE_NOERROR : Z := 0.

(** A parsed resource record as the resolver reads it: [str(rr.rname)],
    [rr.rtype] and [str(rr.rdata)] (for a CNAME the latter is the text of
    [rr.rdata.label]). *)
Record RR : Type := mkRR { rname : string; rtype : Z; rdata : string }.

Record response : Type := mkResponse {
  answers : list RR;
  authority : list RR;
  additional : list RR
}.

Record DNSHeader : Type := mkHeader { header_id : Z; header_rcode : Z }.

(** What one send/receive can come to, by the statement of
    [get_dns_record] that stops it: an exception before a header is
    read (building or sending the query, receiving), an exception in
    [DNSHeader.parse], or a header followed by the sections, which parse
    or raise. *)
Inductive reply : Type :=
| TransportException
| MalformedHeader
| Packet (h : DNSHeader) (sections : option response).

(** The [record_type] argument: ['NS'] or ['A']. *)
Inductive record_type : Type := Q_NS | Q_A.

(** Lines 21-51 of [get_dns_record]: the reply is checked against the
    identifier [qid] of the query. *)
Definition decode_reply (qid : Z) (r : reply) : option response :=
  match r with
  | TransportException => None
  | MalformedHeader => None
  | Packet h sections =>
      if negb (Z.eqb qid (header_id h))
         || negb (Z.eqb (header_rcode h) RCODE_NOERROR)
      then None
      else sections
  end.

(** ** The outside world

    [exchange w domain server rt] is one query sent to [server] and the
    wait for its reply; it yields the identifier the query was given, the
    reply and the next world.  [gethostbyname] is the system resolver,
    [None] when it raises. *)
Class Network (World : Type) : Type := {
  exchange : World -> string -> string -> record_type -> Z * reply * World;
  gethostbyname : World -> string -> option string * World
}.

(** What the program asks of the world: a call of [get_dns_record] with
    what it returned, or a call of [gethostbyname] with its answer. *)
Inductive event : Type :=
| EvQuery (domain server : string) (rt : record_type) (result : option response)
| EvLookup (host : string) (result : option string).

(** The program state: the global [cache], the world, and the history of
    what was asked of the world, each event with the cache as it stood
    when the event happened. *)
Record State (World : Type) : Type := mkState {
  cache : Cache;
  world : World;
  log : list (Cache * event)
}.
Arguments mkState {World}.
Arguments cache {World}.
Arguments world {World}.
Arguments log {World}.

Definition ROOT_SERVER : string := "199.7.83.42".
Definition DNS_PORT : Z := 53.

(** ** Reading a response *)

(** Lines 95-98: the NS records of answers + authority, in order. *)
Definition ns_answers_of (r : response) : list string :=
  map (fun ans => rstrip_dot (rdata ans))
      (filter (fun ans => Z.eqb (rtype ans) QTYPE_NS)
              (answers r ++ authority r)).

(** Lines 105-108: the address records of the additional section whose
    owner is one of the nameservers. *)
Definition ns_ips_of (ns_answers : list string) (r : response)
    : Dict.t (list string) :=
  fold_left
    (fun ns_ips ans =>
       if Z.eqb (rtype ans) QTYPE_A && mem_str (rstrip_dot (rname ans)) ns_answers
       then Dict.set (rstrip_dot (rname ans)) [rdata ans] ns_ips
       else ns_ips)
    (additional r) [].

(** The loop shared by lines 80-85 and 118-123: the address list of the
    first name that is a key of [ips]. *)
Fixpoint first_with_ip (names : list string) (ips : Dict.t (list string))
    : option (list string) :=
  match names with
  | [] => None
  | ns :: rest =>
      match Dict.get ns ips with
      | Some l => Some l
      | None => first_with_ip rest ips
      end
  end.

(** Lines 149-155: the target of the first CNAME among the answers. *)
Fixpoint find_cname (answers : list RR) : option string :=
  match answers with
  | [] => None
  | ans :: rest =>
      if Z.eqb (rtype ans) QTYPE_CNAME then Some (rstrip_dot (rdata ans))
      else find_cname rest
  end.

(** Lines 162-165. *)
Definition ip_addresses_of (answers : list RR) : list string :=
  map rdata (filter (fun ans => Z.eqb (rtype ans) QTYPE_A) answers).

(** Lines 66-71: [curr_domain] for [i] from [len(domain_parts)-1] down
    to [0]. *)
Definition suffixes (domain : string) : list string :=
  let domain_parts := split_dot domain in
  map (fun i => join_dot (skipn i domain_parts))
      (rev (seq 0 (length domain_parts))).

(** How the [for] loop of [resolve] ends: it falls through to the address
    query with a server, it returns [None], or [cache_ips[ns][0]] finds an
    empty list and raises. *)
Inductive walk_result : Type :=
| WalkServer (server : string)
| WalkNone
| WalkIndexError.

(** How [resolve] ends; [OutOfFuel] stands for a [while] loop that has
    not come to an end within the given number of rounds. *)
Inductive outcome : Type :=
| Return (ips : option (list string))
| IndexError
| OutOfFuel.

(** ** Cache inspection *)

(** The [items] list built by [list_cache] and by [remove_cache_N]. *)
Definition list_cache (c : Cache) : list (string * kind) :=
  flat_map (fun dr => map (fun b => (fst dr, kind_of b)) (snd dr)) c.

(** What [remove_cache_N] prints. *)
Inductive message : Type :=
| Invalid (N : Z)
| Removed (N : Z) (domain : string) (k : kind).

Definition remove_cache_N (N : Z) (c : Cache) : Cache * message :=
  let items := list_cache c in
  if Z.ltb N 1 || Z.gtb N (Z.of_nat (length items)) then (c, Invalid N)
  else
    match nth_error items (Z.to_nat (N - 1)) with
    | None => (c, Invalid N) (* not reached: the index is in range *)
    | Some (domain, remove) =>
        let c' :=
          if entry_mem remove (cache_entry domain c) then
            let records := entry_del remove (cache_entry domain c) in
            let c1 := Dict.set domain records c in
            match records with
            | [] => Dict.del domain c1
            | _ :: _ => c1
            end
          else c in
        (c', Removed N domain remove)
    end.

Definition clear_cache (c : Cache) : Cache := [].

Section Resolver.

Context {World : Type} {net : Network World}.

(** Lines 12-51: one exchange with [parent_server] (the socket is part
    of the world), decoded, and entered in the log. *)
Definition get_dns_record (domain parent_server : string) (rt : record_type)
    (st : State World) : option response * State World :=
  let '(qid, r, w) := exchange (world st) domain parent_server rt in
  let result := decode_reply qid r in
  (result,
   mkState (cache st) w
     (log st ++ [(cache st, EvQuery domain parent_server rt result)])).

(** Lines 127-133: the system resolver is asked for each name in turn
    until one call succeeds. *)
Fixpoint lookup_any (names : list string) (st : State World)
    : option string * State World :=
  match names with
  | [] => (None, st)
  | ns :: rest =>
      let '(res, w) := gethostbyname (world st) (rstrip_dot ns) in
      let st' := mkState (cache st) w
                   (log st ++ [(cache st, EvLookup (rstrip_dot ns) res)]) in
      match res with
      | Some ip => (Some ip, st')
      | None => lookup_any rest st'
      end
  end.

(** Lines 111-114. *)
Definition store_delegation (curr_domain : string) (ns_answers : list string)
    (ns_ips : Dict.t (list string)) (st : State World) : State World :=
  mkState
    (cache_store curr_domain (NS_IP ns_ips)
       (cache_store curr_domain (NS ns_answers) (cache st)))
    (world st) (log st).

(** Lines 168-170. *)
Definition store_addresses (domain : string) (ip_addresses : list string)
    (st : State World) : State World :=
  mkState (cache_store domain (A ip_addresses) (cache st)) (world st) (log st).

(** Lines 69-139: the [for] loop, over the suffixes still to visit.
    [server_name] only feeds the printed trace and is left out.  An empty
    address list under a nameserver makes [...[ns][0]] raise; the lists
    built from a response are never empty ([ns_ips_of_singleton]), those
    of the cache are whatever the cache holds. *)
Fixpoint delegation_walk (todo : list string) (server : string)
    (st : State World) : walk_result * State World :=
  match todo with
  | [] => (WalkServer server, st)
  | curr_domain :: rest =>
      match cache_NS curr_domain (cache st) with
      | Some ns_cache =>
          match first_with_ip ns_cache (cache_NS_IP curr_domain (cache st)) with
          | Some (ip :: _) => delegation_walk rest ip st
          | Some [] => (WalkIndexError, st)
          | None => delegation_walk rest server st
          end
      | None =>
          let '(response, st1) := get_dns_record curr_domain server Q_NS st in
          match response with
          | None => (WalkNone, st1)
          | Some r =>
              let ns_answers := ns_answers_of r in
              match ns_answers with
              | [] => (WalkServer server, st1)
              | _ :: _ =>
                  let ns_ips := ns_ips_of ns_answers r in
                  let st2 := store_delegation curr_domain ns_answers ns_ips st1 in
                  match first_with_ip ns_answers ns_ips with
                  | Some (ip :: _) => delegation_walk rest ip st2
                  | Some [] => (WalkIndexError, st2)
                  | None =>
                      let '(next_server, st3) := lookup_any ns_answers st2 in
                      match next_server with
                      | Some ip => delegation_walk rest ip st3
                      | None => (WalkNone, st3)
                      end
                  end
              end
          end
      end
  end.

(** Lines 55-173: one round of the [while] loop per unit of fuel. *)
Fixpoint resolve (fuel : nat) (domain : string) (st : State World)
    : outcome * State World :=
  match fuel with
  | O => (OutOfFuel, st)
  | S fuel' =>
      match cache_A domain (cache st) with
      | Some ips => (Return (Some ips), st)
      | None =>
          match delegation_walk (suffixes domain) ROOT_SERVER st with
          | (WalkNone, st1) => (Return None, st1)
          | (WalkIndexError, st1) => (IndexError, st1)
          | (WalkServer server, st1) =>
              let '(response, st2) := get_dns_record domain server Q_A st1 in
              match response with
              | None => (Return None, st2)
              | Some r =>
                  match find_cname (answers r) with
                  | Some cname => resolve fuel' cname st2
                  | None =>
                      match ip_addresses_of (answers r) with
                      | [] => (Return None, st2)
                      | ip_addresses =>
                          (Return (Some ip_addresses),
                           store_addresses domain ip_addresses st2)
                      end
                  end
              end
          end
      end
  end.

End Resolver.

(** ** The command loop

    Lines 214-244.  What [input()] returns is a line of ASCII characters
    here: for them the whitespace of [strip] and [split] and the digits
    of [isdigit] and [int] are the ones below.  The statements about the
    loop say so in a hypothesis ([plain_lines]). *)

(** [c.isspace()] for an ASCII character: tab to carriage return, the
    four separators 28-31, and the space. *)
Definition is_space (c : ascii) : bool :=
  let n := nat_of_ascii c in
  ((9 <=? n) && (n <=? 13) || (28 <=? n) && (n <=? 32))%nat.

Fixpoint lstrip (s : string) : string :=
  match s with
  | EmptyString => EmptyString
  | String c s' => if is_space c then lstrip s' else s
  end.

Fixpoint rstrip (s : string) : string :=
  match s with
  | EmptyString => EmptyString
  | String c s' =>
      match rstrip s' with
      | EmptyString => if is_space c then EmptyString else String c EmptyString
      | r => String c r
      end
  end.

(** [s.strip()] *)
Definition strip (s : string) : string := rstrip (lstrip s).

(** The pieces between single whitespace characters, empty ones kept. *)
Fixpoint pieces (s : string) : list string :=
  match s with
  | EmptyString => [EmptyString]
  | String c s' =>
      if is_space c then EmptyString :: pieces s'
      else match pieces s' with
           | p :: ps => String c p :: ps
           | [] => [String c EmptyString]
           end
  end.

(** [s.split()]: the words between runs of whitespace. *)
Definition split (s : string) : list string :=
  filter (fun w => negb (String.eqb w EmptyString)) (pieces s).

Definition is_digit (c : ascii) : bool :=
  let n := nat_of_ascii c in ((48 <=? n) && (n <=? 57))%nat.

(** [s.isdigit()] *)
Definition isdigit (s : string) : bool :=
  negb (String.eqb s EmptyString) && forallb is_digit (list_ascii_of_string s).

(** [int(s)] for a string of digits. *)
Definition int (s : string) : Z :=
  fold_left (fun acc c => (10 * acc + (Z.of_nat (nat_of_ascii c) - 48))%Z)
            (list_ascii_of_string s) 0%Z.

(** The lines the model of the loop is meant for: ASCII characters only,
    and no longer than the 4300 digits [int] converts. *)
Definition plain_line (line : string) : bool :=
  forallb (fun c => (nat_of_ascii c <? 128)%nat) (list_ascii_of_string line)
  && (String.length line <=? 4300)%nat.

Definition plain_lines (lines : list string) : Prop :=
  forallb plain_line lines = true.

(** What the loop prints besides its prompt: the listing of [list_cache],
    the confirmation of [clear_cache], the message of [remove_cache_N],
    the usage line, and the result or the failure of a resolution. *)
Inductive printed : Type :=
| Listing (items : list (string * kind))
| Cleared
| RemoveSaid (m : message)
| Usage
| Result (domain : string) (ips : list string)
| Failed (domain : string).

(** How the program ends: [.exit], the end of the input ([input()]
    raises), [split_input[1]] on a [.remove] without argument, the
    [IndexError] of [resolve], or a resolution that has not come to an
    end within the fuel. *)
Inductive ending : Type :=
| Exited
| EOFError
| RemoveIndexError
| ResolveIndexError
| Unfinished.

Inductive step_result (World : Type) : Type :=
| Continue (out : list printed) (st : State World)
| Stop (e : ending) (st : State World).
Arguments Continue {World}.
Arguments Stop {World}.

Section CommandLoop.

Context {World : Type} {net : Network World}.

Definition with_cache (c : Cache) (st : State World) : State World :=
  mkState c (world st) (log st).

(** Lines 219-242: the body of the loop for one line of input. *)
Definition command (fuel : nat) (line : string) (st : State World)
    : step_result World :=
  let domain := strip line in
  if String.eqb domain "" then Continue [] st
  else if String.eqb domain ".exit" then Stop Exited st
  else if String.eqb domain ".list" then
    Continue [Listing (list_cache (cache st))] st
  else if String.eqb domain ".clear" then
    Continue [Cleared] (with_cache (clear_cache (cache st)) st)
  else if String.prefix ".remove" domain then
    match split domain with
    | _ :: num :: _ =>
        if isdigit num then
          let '(c, m) := remove_cache_N (int num) (cache st) in
          Continue [RemoveSaid m] (with_cache c st)
        else Continue [Usage] st
    | _ => Stop RemoveIndexError st
    end
  else
    match resolve fuel domain st with
    | (Return (Some (ip :: ips)), st') => Continue [Result domain (ip :: ips)] st'
    | (Return _, st') => Continue [Failed domain] st'
    | (IndexError, st') => Stop ResolveIndexError st'
    | (OutOfFuel, st') => Stop Unfinished st'
    end.

(** Lines 217-244: the loop over the lines the user types. *)
Fixpoint main (fuel : nat) (lines : list string) (st : State World)
    : ending * list printed * State World :=
  match lines with
  | [] => (EOFError, [], st)
  | line :: rest =>
      match command fuel line st with
      | Continue out st' =>
          let '(e, outs, st'') := main fuel rest st' in
          (e, out ++ outs, st'')
      | Stop e st' => (e, [], st')
      end
  end.

End CommandLoop.

(** ** A scripted world

    A world that is a list of prepared answers, consumed one per call
    whatever is asked; once the script is used up every exchange and
    every lookup fails.  It is the world of the worked examples. *)

Inductive scripted : Type :=
| Reply (qid : Z) (r : reply)
| Host (ip : option string).

Definition script_exchange (w : list scripted) (domain server : string)
    (rt : record_type) : Z * reply * list scripted :=
  match w with
  | Reply qid r :: w' => (qid, r, w')
  | _ :: w' => (0%Z, TransportException, w')
  | [] => (0%Z, TransportException, [])
  end.

Definition script_gethostbyname (w : list scripted) (host : string)
    : option string * list scripted :=
  match w with
  | Host ip :: w' => (ip, w')
  | _ :: w' => (None, w')
  | [] => (None, [])
  end.

#[export] Instance script_network : Network (list scripted) := {
  exchange := script_exchange;
  gethostbyname := script_gethostbyname
}.

Definition start (c : Cache) (w : list scripted) : State (list scripted) :=
  mkState c w [].

(** A successful reply carrying the given sections. *)
Definition ok (ans auth add : list RR) : scripted :=
  Reply 7 (Packet (mkHeader 7 RCODE_NOERROR) (Some (mkResponse ans auth add))).

Definition events {World} (st : State World) : list event := map snd (log st).

(** ** The two loops, case by case

    The same two loops as relations, for proofs by induction on a run;
    [delegation_walk_Walk] and [resolve_Resolve] below relate them to the
    functions. *)

Section Cases.

Context {World : Type} {net : Network World}.

(** One constructor per way through the body of the [for] loop. *)
Inductive Walk : list string -> string -> State World ->
                 walk_result -> State World -> Prop :=
| Walk_done server st :
    Walk [] server st (WalkServer server) st
| Walk_cached curr rest server st ns_cache ip ips res st' :
    cache_NS curr (cache st) = Some ns_cache ->
    first_with_ip ns_cache (cache_NS_IP curr (cache st)) = Some (ip :: ips) ->
    Walk rest ip st res st' ->
    Walk (curr :: rest) server st res st'
| Walk_cached_empty_list curr rest server st ns_cache :
    cache_NS curr (cache st) = Some ns_cache ->
    first_with_ip ns_cache (cache_NS_IP curr (cache st)) = Some [] ->
    Walk (curr :: rest) server st WalkIndexError st
| Walk_cached_no_ip curr rest server st ns_cache res st' :
    cache_NS curr (cache st) = Some ns_cache ->
    first_with_ip ns_cache (cache_NS_IP curr (cache st)) = None ->
    Walk rest server st res st' ->
    Walk (curr :: rest) server st res st'
| Walk_no_response curr rest server st st1 :
    cache_NS curr (cache st) = None ->
    get_dns_record curr server Q_NS st = (None, st1) ->
    Walk (curr :: rest) server st WalkNone st1
| Walk_no_ns curr rest server st r st1 :
    cache_NS curr (cache st) = None ->
    get_dns_record curr server Q_NS st = (Some r, st1) ->
    ns_answers_of r = [] ->
    Walk (curr :: rest) server st (WalkServer server) st1
| Walk_glue curr rest server st r st1 ip res st' :
    cache_NS curr (cache st) = None ->
    get_dns_record curr server Q_NS st = (Some r, st1) ->
    ns_answers_of r <> [] ->
    first_with_ip (ns_answers_of r) (ns_ips_of (ns_answers_of r) r) = Some [ip] ->
    Walk rest ip
      (store_delegation curr (ns_answers_of r) (ns_ips_of (ns_answers_of r) r) st1)
      res st' ->
    Walk (curr :: rest) server st res st'
| Walk_lookup curr rest server st r st1 ip st3 res st' :
    cache_NS curr (cache st) = None ->
    get_dns_record curr server Q_NS st = (Some r, st1) ->
    ns_answers_of r <> [] ->
    first_with_ip (ns_answers_of r) (ns_ips_of (ns_answers_of r) r) = None ->
    lookup_any (ns_answers_of r)
      (store_delegation curr (ns_answers_of r) (ns_ips_of (ns_answers_of r) r) st1)
    = (Some ip, st3) ->
    Walk rest ip st3 res st' ->
    Walk (curr :: rest) server st res st'
| Walk_lookup_failed curr rest server st r st1 st3 :
    cache_NS curr (cache st) = None ->
    get_dns_record curr server Q_NS st = (Some r, st1) ->
    ns_answers_of r <> [] ->
    first_with_ip (ns_answers_of r) (ns_ips_of (ns_answers_of r) r) = None ->
    lookup_any (ns_answers_of r)
      (store_delegation curr (ns_answers_of r) (ns_ips_of (ns_answers_of r) r) st1)
    = (None, st3) ->
    Walk (curr :: rest) server st WalkNone st3.

(** One constructor per way through a round of the [while] loop. *)
Inductive Resolve : nat -> string -> State World ->
                    outcome -> State World -> Prop :=
| Resolve_out_of_fuel domain st :
    Resolve 0 domain st OutOfFuel st
| Resolve_cached fuel domain st ips :
    cache_A domain (cache st) = Some ips ->
    Resolve (S fuel) domain st (Return (Some ips)) st
| Resolve_walk_none fuel domain st st1 :
    cache_A domain (cache st) = None ->
    Walk (suffixes domain) ROOT_SERVER st WalkNone st1 ->
    Resolve (S fuel) domain st (Return None) st1
| Resolve_walk_error fuel domain st st1 :
    cache_A domain (cache st) = None ->
    Walk (suffixes domain) ROOT_SERVER st WalkIndexError st1 ->
    Resolve (S fuel) domain st IndexError st1
| Resolve_no_response fuel domain st server st1 st2 :
    cache_A domain (cache st) = None ->
    Walk (suffixes domain) ROOT_SERVER st (WalkServer server) st1 ->
    get_dns_record domain server Q_A st1 = (None, st2) ->
    Resolve (S fuel) domain st (Return None) st2
| Resolve_alias fuel domain st server st1 r st2 cname out st' :
    cache_A domain (cache st) = None ->
    Walk (suffixes domain) ROOT_SERVER st (WalkServer server) st1 ->
    get_dns_record domain server Q_A st1 = (Some r, st2) ->
    find_cname (answers r) = Some cname ->
    Resolve fuel cname st2 out st' ->
    Resolve (S fuel) domain st out st'
| Resolve_no_address fuel domain st server st1 r st2 :
    cache_A domain (cache st) = None ->
    Walk (suffixes domain) ROOT_SERVER st (WalkServer server) st1 ->
    get_dns_record domain server Q_A st1 = (Some r, st2) ->
    find_cname (answers r) = None ->
    ip_addresses_of (answers r) = [] ->
    Resolve (S fuel) domain st (Return None) st2
| Resolve_answer fuel domain st server st1 r st2 :
    cache_A domain (cache st) = None ->
    Walk (suffixes domain) ROOT_SERVER st (WalkServer server) st1 ->
    get_dns_record domain server Q_A st1 = (Some r, st2) ->
    find_cname (answers r) = None ->
    ip_addresses_of (answers r) <> [] ->
    Resolve (S fuel) domain st
      (Return (Some (ip_addresses_of (answers r))))
      (store_addresses domain (ip_addresses_of (answers r)) st2).

End Cases.

(** ** Vocabulary of the statements *)

(** The lookups logged by a run of [lookup_any]: the candidates that
    failed, then the one that answered, if any. *)
Definition lookups_of (failed : list string) (hit : option (string * string))
    : list event :=
  map (fun ns => EvLookup (rstrip_dot ns) None) failed ++
  match hit with
  | Some (ns, ip) => [EvLookup (rstrip_dot ns) (Some ip)]
  | None => []
  end.

(** The (domain, bucket) pairs of the cache with their values, in the
    order [list_cache] numbers them. *)
Definition cache_pairs (c : Cache) : list (string * bucket) :=
  flat_map (fun dr => map (pair (fst dr)) (snd dr)) c.

Definition remove_at {T} (n : nat) (l : list T) : list T :=
  firstn n l ++ skipn (S n) l.

(** What a Python dictionary guarantees: no key twice, in the cache and
    in each of its entries. *)
Definition cache_wf (c : Cache) : Prop :=
  NoDup (Dict.keys c) /\
  forall d e, In (d, e) c -> NoDup (map kind_of e).

(** The cache after lines 207-210 of [remove_cache_N] for the pair
    [(domain, remove)]. *)
Definition without (domain : string) (remove : kind) (c : Cache) : Cache :=
  let records := entry_del remove (cache_entry domain c) in
  let c1 := Dict.set domain records c in
  match records with
  | [] => Dict.del domain c1
  | _ :: _ => c1
  end.

(** [grown st st' new]: the run from [st] to [st'] logged [new]. *)
Definition grown {World : Type} (st st' : State World)
    (new : list (Cache * event)) : Prop :=
  log st' = log st ++ new.

(** The (name, server) pairs of the NS queries among the events. *)
Definition ns_queries (evs : list event) : list (string * string) :=
  flat_map (fun e => match e with
                     | EvQuery d s Q_NS _ => [(d, s)]
                     | _ => []
                     end) evs.



(** An NS query that was answered with a delegation. *)
Definition delegated (e : event) : Prop :=
  match e with
  | EvQuery _ _ Q_NS (Some r) => ns_answers_of r <> []
  | EvQuery _ _ Q_NS None => False
  | _ => True
  end.

(** An exchange is answered when [get_dns_record] produced sections;
    lookups are not exchanges. *)
Definition answered (e : event) : Prop :=
  match e with
  | EvQuery _ _ _ None => False
  | _ => True
  end.

Definition all_answered (l : list (Cache * event)) : Prop :=
  Forall (fun p => answered (snd p)) l.

(** Either every exchange was answered, or exactly the last event is an
    exchange without result and [gave_up] holds. *)
Definition stops_at_failure (gave_up : Prop) (l : list (Cache * event)) : Prop :=
  all_answered l \/
  (gave_up /\
   exists before c d s rt,
     l = before ++ [(c, EvQuery d s rt None)] /\ all_answered before).

(** The bucket a query asks for is not in the cache of that moment. *)
Definition bucket_absent (p : Cache * event) : Prop :=
  match snd p with
  | EvQuery d _ Q_NS _ => cache_NS d (fst p) = None
  | EvQuery d _ Q_A _ => cache_A d (fst p) = None
  | EvLookup _ _ => True
  end.

(** Why an exchange yields nothing: no header was read, the header does
    not answer the query or reports an error, or a section did not
    parse. *)
Definition failure_cause (qid : Z) (r : reply) : Prop :=
  match r with
  | TransportException => True
  | MalformedHeader => True
  | Packet h sections =>
      header_id h <> qid \/ header_rcode h <> RCODE_NOERROR \/ sections = None
  end.

(** Every address list of the cache holds an address: no A bucket is
    the empty list and no nameserver of an NS_IP bucket has an empty
    list. *)
Definition addresses_ok (c : Cache) : Prop :=
  (forall d, cache_A d c <> Some []) /\
  (forall d ns, Dict.get ns (cache_NS_IP d c) <> Some []).

(** What holds of every cache the program builds. *)
Definition cache_ok (c : Cache) : Prop := cache_wf c /\ addresses_ok c.

(** The additional records that give an address for [ns]. *)
Definition glue_records (ns : string) (r : response) : list RR :=
  filter (fun ans => Z.eqb (rtype ans) QTYPE_A
                     && String.eqb (rstrip_dot (rname ans)) ns)
         (additional r).

(** The A queries among the events that were answered with a CNAME. *)
Definition alias_answers (evs : list event) : list string :=
  flat_map (fun e => match e with
                     | EvQuery d _ Q_A (Some r) =>
                         match find_cname (answers r) with
                         | Some _ => [d]
                         | None => []
                         end
                     | _ => []
                     end) evs.

(** The suffixes of [todo] that have no NS bucket in [c]. *)
Definition uncached (c : Cache) (todo : list string) : list string :=
  filter (fun d => match cache_NS d c with Some _ => false | None => true end)
         todo.

(** The non-empty tails of a list, longest first. *)
Fixpoint tails {X} (l : list X) : list (list X) :=
  match l with
  | [] => []
  | _ :: t => l :: tails t
  end.

(** The suffixes of a name that are shorter than the name, in the order
    of the walk. *)
Definition proper_suffixes (domain : string) : list string :=
  rev (map join_dot (tails (tl (split_dot domain)))).

(** An NS query answered without any NS record. *)
Definition dead_end (p : Cache * event) : Prop :=
  match snd p with
  | EvQuery _ _ Q_NS (Some r) => ns_answers_of r = []
  | _ => False
  end.

(** The state a step of the command loop leaves. *)
Definition state_after {World : Type} (r : step_result World) : State World :=
  match r with
  | Continue _ st => st
  | Stop _ st => st
  end.

(** The lines that are given to [resolve]: not blank, not one of the
    commands. *)
Definition is_query (line : string) : bool :=
  let domain := strip line in
  negb (String.eqb domain "") && negb (String.eqb domain ".exit")
  && negb (String.eqb domain ".list") && negb (String.eqb domain ".clear")
  && negb (String.prefix ".remove" domain).

(** No whitespace in [s]. *)
Definition one_word (s : string) : bool :=
  forallb (fun c => negb (is_space c)) (list_ascii_of_string s).



(** A lookup of the system resolver, as opposed to an exchange. *)
Definition is_lookup (p : Cache * event) : Prop :=
  match snd p with
  | EvLookup _ _ => True
  | EvQuery _ _ _ _ => False
  end.

(** ** Worked inputs

    Caches and scripted worlds on which the statements below are tried. *)

(** A referral: one NS record for [ns] in the authority section and its
    address in the additional section. *)
Definition delegation (ns glue_ip : string) : scripted :=
  ok [] [mkRR "zone." QTYPE_NS (ns ++ ".")%string]
     [mkRR (ns ++ ".")%string QTYPE_A glue_ip].

(** The sections of [delegation "ns.c" "1.1.1.1"]. *)
Definition referral_c : response :=
  mkResponse [] [mkRR "zone." QTYPE_NS "ns.c."] [mkRR "ns.c." QTYPE_A "1.1.1.1"].

(** An empty cache and a referral with glue at each of c, b.c and a.b.c,
    then the address of a.b.c. *)
Definition st_abc : State (list scripted) :=
  start [] [delegation "ns.c" "1.1.1.1"; delegation "ns.b.c" "2.2.2.2";
            delegation "ns.a.b.c" "3.3.3.3";
            ok [mkRR "a.b.c." QTYPE_A "9.9.9.9"] [] []].

(** Three records: x.com NS, x.com A, y.com A. *)
Definition cache_xy : Cache :=
  [("x.com", [NS ["ns.x.com"]; A ["1.1.1.1"]]); ("y.com", [A ["2.2.2.2"]])].

(** The addresses of example.com are cached. *)
Definition st_cached : State (list scripted) :=
  start [("example.com", [A ["1.2.3.4"]])] [].

(** The addresses of example.com are cached; com answers without NS
    record and the A query for www.example.com is answered with a CNAME
    to example.com. *)
Definition st_alias : State (list scripted) :=
  start [("example.com", [A ["5.6.7.8"]])]
    [ok [] [] [];
     ok [mkRR "www.example.com." QTYPE_CNAME "example.com."] [] []].

(** An alias chain that leads back to the name it started from: the
    first answer for www.example.com is a CNAME to example.com, the
    answer for example.com is a CNAME back to www.example.com, and the
    third answer carries an address.  Before each A query com answers
    without NS record. *)
Definition st_alias_loop : State (list scripted) :=
  start []
    [ok [] [] [];
     ok [mkRR "www.example.com." QTYPE_CNAME "example.com."] [] [];
     ok [] [] [];
     ok [mkRR "example.com." QTYPE_CNAME "www.example.com."] [] [];
     ok [] [] [];
     ok [mkRR "www.example.com." QTYPE_A "5.6.7.8"] [] []].


(** A referral to three nameservers without glue, and a system resolver
    that fails for the first and answers for the second. *)
Definition st_fallback : State (list scripted) :=
  start []
    [ok [] [mkRR "c." QTYPE_NS "ns1.c."; mkRR "c." QTYPE_NS "ns2.c.";
            mkRR "c." QTYPE_NS "ns3.c."] [];
     Host None; Host (Some "4.4.4.4"); ok [mkRR "c." QTYPE_A "9.9.9.9"] [] []].

(** The entry of c holds an NS_IP bucket and an A bucket but no NS
    bucket (it was removed); the referral for c arrives. *)
Definition st_stale : State (list scripted) :=
  start [("c", [NS_IP [("old.c", ["0.0.0.0"])]; A ["8.8.8.8"]])]
    [delegation "ns.c" "1.1.1.1"].

(** The NS query for c is answered without any NS record, the A query
    with an address. *)
Definition st_no_ns : State (list scripted) :=
  start [] [ok [] [] []; ok [mkRR "c." QTYPE_A "9.9.9.9"] [] []].

(** A referral for c, then a reply that answers another transaction
    (identifier 8 for query 7). *)
Definition st_fail : State (list scripted) :=
  start [] [delegation "ns.c" "1.1.1.1";
            Reply 7 (Packet (mkHeader 8 RCODE_NOERROR) (Some (mkResponse [] [] [])));
            ok [mkRR "b.c." QTYPE_A "9.9.9.9"] [] []].

(** The NS query for b is answered without NS record, the A query for
    a.b with an address. *)
Definition st_stop : State (list scripted) :=
  start [] [ok [] [] []; ok [mkRR "a.b." QTYPE_A "9.9.9.9"] [] []].

(** The NS and NS_IP buckets of b.c are cached: ns1.b.c at 9.9.9.9. *)
Definition st_reuse : State (list scripted) :=
  start [("b.c", [NS ["ns1.b.c"]; NS_IP [("ns1.b.c", ["9.9.9.9"])]])] [].

(** A session: a listing, a resolution, the removal of the first record,
    and the exit. *)
Definition session_lines : list string :=
  [".list"; " c "; ".remove 1"; ".exit"].



(** The addresses of example.com are cached; the root answers the NS
    query for the empty label without NS record and the A query for
    Example.COM. with an address. *)
Definition st_spelled : State (list scripted) :=
  start [("example.com", [A ["1.2.3.4"]])]
    [ok [] [] []; ok [mkRR "Example.COM." QTYPE_A "6.6.6.6"] [] []].

(** * Properties *)

Example suffixes_abc : suffixes "a.b.c" = ["c"; "b.c"; "a.b.c"].
Proof. reflexivity. Qed.

Example suffixes_trailing_dot :
  suffixes "Example.COM." = [""; "COM."; "Example.COM."].
Proof. reflexivity. Qed.

Example run_abc_events :
  fst (resolve 3 "a.b.c" st_abc) = Return (Some ["9.9.9.9"]) /\
  map (fun e => match e with
                | EvQuery d s rt _ => Some (d, s, rt)
                | EvLookup _ _ => None
                end) (events (snd (resolve 3 "a.b.c" st_abc))) =
  [Some ("c", ROOT_SERVER, Q_NS); Some ("b.c", "1.1.1.1", Q_NS);
   Some ("a.b.c", "2.2.2.2", Q_NS); Some ("a.b.c", "3.3.3.3", Q_A)] /\
  list_cache (cache (snd (resolve 3 "a.b.c" st_abc))) =
  [("c", K_NS); ("c", K_NS_IP); ("b.c", K_NS); ("b.c", K_NS_IP);
   ("a.b.c", K_NS); ("a.b.c", K_NS_IP); ("a.b.c", K_A)].
Proof. vm_compute. repeat split. Qed.

(** ** Dictionaries: reading after writing *)

Module DictFacts.

Lemma get_set_same {V} (k : string) (v : V) (d : Dict.t V) :
  Dict.get k (Dict.set k v d) = Some v.
Proof.
  induction d as [|[k' v'] r IH]; simpl.
  - now rewrite String.eqb_refl.
  - destruct (String.eqb k k') eqn:E; simpl; rewrite ?String.eqb_refl, ?E; auto.
Qed.

Lemma get_set_other {V} (k k' : string) (v : V) (d : Dict.t V) :
  k <> k' -> Dict.get k' (Dict.set k v d) = Dict.get k' d.
Proof.
  intros Hne. induction d as [|[k0 v0] r IH]; simpl.
  - destruct (String.eqb_spec k' k); congruence.
  - destruct (String.eqb_spec k k0) as [->|Hk]; simpl.
    + destruct (String.eqb_spec k' k0); congruence.
    + destruct (String.eqb_spec k' k0); auto.
Qed.

Lemma get_none_not_in {V} (k : string) (d : Dict.t V) :
  Dict.get k d = None <-> ~ In k (Dict.keys d).
Proof.
  induction d as [|[k' v'] r IH]; simpl.
  - tauto.
  - destruct (String.eqb_spec k k') as [->|Hk].
    + split; [discriminate | intros H; exfalso; apply H; now left].
    + rewrite IH. split; [intros H [E|I]; [congruence | tauto] | tauto].
Qed.

Lemma del_not_in {V} (k : string) (d : Dict.t V) :
  ~ In k (Dict.keys d) -> Dict.del k d = d.
Proof.
  induction d as [|[k' v'] r IH]; simpl; auto.
  intros H. destruct (String.eqb_spec k k') as [->|Hk]; [tauto|].
  f_equal. apply IH. tauto.
Qed.

End DictFacts.

(** ** Cache buckets: reading after writing *)

Lemma kind_eqb_spec (a b : kind) : reflect (a = b) (kind_eqb a b).
Proof. destruct a, b; simpl; constructor; congruence. Qed.

Lemma entry_get_kind (k : kind) (e : entry) (b : bucket) :
  entry_get k e = Some b -> kind_of b = k.
Proof.
  induction e as [|b' r IH]; simpl; [discriminate|].
  destruct (kind_eqb_spec k (kind_of b')); [intros [= <-]; auto | auto].
Qed.

Lemma entry_get_set_same (b : bucket) (e : entry) :
  entry_get (kind_of b) (entry_set b e) = Some b.
Proof.
  induction e as [|b' r IH]; simpl.
  - now destruct (kind_eqb_spec (kind_of b) (kind_of b)).
  - destruct (kind_eqb_spec (kind_of b) (kind_of b')) as [E|E]; simpl.
    + now destruct (kind_eqb_spec (kind_of b) (kind_of b)).
    + now destruct (kind_eqb_spec (kind_of b) (kind_of b')).
Qed.

Lemma entry_get_set_other (k : kind) (b : bucket) (e : entry) :
  k <> kind_of b -> entry_get k (entry_set b e) = entry_get k e.
Proof.
  intros Hne. induction e as [|b' r IH]; simpl.
  - now destruct (kind_eqb_spec k (kind_of b)).
  - destruct (kind_eqb_spec (kind_of b) (kind_of b')) as [E|E]; simpl.
    + destruct (kind_eqb_spec k (kind_of b)); [congruence|].
      destruct (kind_eqb_spec k (kind_of b')); congruence.
    + destruct (kind_eqb_spec k (kind_of b')); auto.
Qed.

Lemma cache_entry_store_same (d : string) (b : bucket) (c : Cache) :
  cache_entry d (cache_store d b c) = entry_set b (cache_entry d c).
Proof.
  unfold cache_store. unfold cache_entry at 1.
  now rewrite DictFacts.get_set_same.
Qed.

Lemma cache_entry_store_other (d d' : string) (b : bucket) (c : Cache) :
  d <> d' -> cache_entry d' (cache_store d b c) = cache_entry d' c.
Proof.
  intros Hne. unfold cache_store, cache_entry.
  now rewrite DictFacts.get_set_other.
Qed.

(** A store changes the bucket of its own kind under its own domain and
    nothing else. *)
Lemma entry_get_store (k : kind) (d d' : string) (b : bucket) (c : Cache) :
  entry_get k (cache_entry d' (cache_store d b c)) =
  if String.eqb d d' && kind_eqb k (kind_of b) then Some b
  else entry_get k (cache_entry d' c).
Proof.
  destruct (String.eqb_spec d d') as [->|Hd]; simpl.
  - rewrite cache_entry_store_same.
    destruct (kind_eqb_spec k (kind_of b)) as [->|Hk].
    + apply entry_get_set_same.
    + now apply entry_get_set_other.
  - now rewrite cache_entry_store_other.
Qed.

Lemma cache_A_store (d d' : string) (b : bucket) (c : Cache) :
  kind_of b <> K_A -> cache_A d' (cache_store d b c) = cache_A d' c.
Proof.
  intros Hk. unfold cache_A. rewrite entry_get_store.
  destruct (kind_eqb_spec K_A (kind_of b)); [congruence|].
  now rewrite andb_false_r.
Qed.

Lemma cache_A_store_A (d d' : string) (ips : list string) (c : Cache) :
  cache_A d' (cache_store d (A ips) c) =
  if String.eqb d d' then Some ips else cache_A d' c.
Proof.
  unfold cache_A. rewrite entry_get_store. simpl. rewrite andb_true_r.
  now destruct (String.eqb d d').
Qed.

Lemma cache_NS_store_NS (d d' : string) (names : list string) (c : Cache) :
  cache_NS d' (cache_store d (NS names) c) =
  if String.eqb d d' then Some names else cache_NS d' c.
Proof.
  unfold cache_NS. rewrite entry_get_store. simpl. rewrite andb_true_r.
  now destruct (String.eqb d d').
Qed.

Lemma cache_NS_store (d d' : string) (b : bucket) (c : Cache) :
  kind_of b <> K_NS -> cache_NS d' (cache_store d b c) = cache_NS d' c.
Proof.
  intros Hk. unfold cache_NS. rewrite entry_get_store.
  destruct (kind_eqb_spec K_NS (kind_of b)); [congruence|].
  now rewrite andb_false_r.
Qed.

Lemma cache_NS_IP_store_NS_IP (d d' : string) (g : Dict.t (list string))
    (c : Cache) :
  cache_NS_IP d' (cache_store d (NS_IP g) c) =
  if String.eqb d d' then g else cache_NS_IP d' c.
Proof.
  unfold cache_NS_IP. rewrite entry_get_store. simpl. rewrite andb_true_r.
  now destruct (String.eqb d d').
Qed.

Lemma cache_NS_IP_store (d d' : string) (b : bucket) (c : Cache) :
  kind_of b <> K_NS_IP -> cache_NS_IP d' (cache_store d b c) = cache_NS_IP d' c.
Proof.
  intros Hk. unfold cache_NS_IP. rewrite entry_get_store.
  destruct (kind_eqb_spec K_NS_IP (kind_of b)); [congruence|].
  now rewrite andb_false_r.
Qed.

(** ** The two calls to the outside world *)

Section Exchanges.

Context {World : Type} {net : Network World}.

Lemma get_dns_record_inv (d s : string) (rt : record_type) (st : State World)
    (result : option response) (st' : State World) :
  get_dns_record d s rt st = (result, st') ->
  cache st' = cache st /\
  log st' = log st ++ [(cache st, EvQuery d s rt result)].
Proof.
  unfold get_dns_record.
  destruct (exchange (world st) d s rt) as [[qid r] w].
  intros [= <- <-]. simpl. auto.
Qed.

Lemma lookup_any_inv (names : list string) :
  forall (st : State World) res st',
    lookup_any names st = (res, st') ->
    cache st' = cache st /\
    exists failed hit,
      log st' = log st ++ map (pair (cache st)) (lookups_of failed hit) /\
      match res, hit with
      | Some ip, Some (ns, ip') =>
          ip' = ip /\ exists rest, names = failed ++ ns :: rest
      | None, None => names = failed
      | _, _ => False
      end.
Proof.
  induction names as [|ns rest IH]; simpl; intros st res st' H.
  - injection H as <- <-. split; [reflexivity|].
    exists [], None. simpl. now rewrite app_nil_r.
  - destruct (gethostbyname (world st) (rstrip_dot ns)) as [[ip|] w].
    + injection H as <- <-. simpl. split; [reflexivity|].
      exists [], (Some (ns, ip)). simpl. split; [reflexivity|].
      split; [reflexivity|]. now exists rest.
    + apply IH in H. simpl in H. destruct H as [Hc (failed & hit & Hl & Hres)].
      split; [assumption|].
      exists (ns :: failed), hit. split.
      * rewrite Hl. unfold lookups_of. simpl. now rewrite <- app_assoc.
      * destruct res as [ip|], hit as [[n ip']|]; try contradiction.
        -- destruct Hres as [-> [rest' ->]]. split; [reflexivity|].
           now exists rest'.
        -- now subst.
Qed.

End Exchanges.

(** ** Choosing among nameservers *)

Lemma first_with_ip_some (names : list string) (ips : Dict.t (list string))
    (l : list string) :
  first_with_ip names ips = Some l ->
  exists skipped ns rest,
    names = skipped ++ ns :: rest /\
    (forall x, In x skipped -> Dict.get x ips = None) /\
    Dict.get ns ips = Some l.
Proof.
  induction names as [|n r IH]; simpl; [discriminate|].
  destruct (Dict.get n ips) as [l'|] eqn:E.
  - intros [= <-]. exists [], n, r. simpl. intuition.
  - intros H. destruct (IH H) as (sk & ns & rest & -> & Hsk & Hns).
    exists (n :: sk), ns, rest. simpl. split; [reflexivity|]. split; [|assumption].
    intros x [<-|Hx]; auto.
Qed.

Lemma first_with_ip_none (names : list string) (ips : Dict.t (list string)) :
  first_with_ip names ips = None <->
  forall x, In x names -> Dict.get x ips = None.
Proof.
  induction names as [|n r IH]; simpl.
  - split; [intros _ x [] | reflexivity].
  - destruct (Dict.get n ips) as [l|] eqn:E.
    + split; [discriminate|]. intros H. rewrite (H n) in E; [discriminate | now left].
    + rewrite IH. split.
      * intros H x [<-|Hx]; auto.
      * intros H x Hx. apply H. now right.
Qed.

(** Every address list built from a response holds exactly one address. *)
Lemma ns_ips_of_singleton (names : list string) (r : response) (k : string)
    (l : list string) :
  Dict.get k (ns_ips_of names r) = Some l -> exists ip, l = [ip].
Proof.
  unfold ns_ips_of.
  assert (G : forall (adds : list RR) (acc : Dict.t (list string)),
             (forall k l, Dict.get k acc = Some l -> exists ip, l = [ip]) ->
             forall k l,
               Dict.get k
                 (fold_left
                    (fun ns_ips ans =>
                       if Z.eqb (rtype ans) QTYPE_A
                          && mem_str (rstrip_dot (rname ans)) names
                       then Dict.set (rstrip_dot (rname ans)) [rdata ans] ns_ips
                       else ns_ips) adds acc) = Some l ->
               exists ip, l = [ip]).
  { induction adds as [|a adds IH]; simpl; intros acc Hacc; [exact Hacc|].
    apply IH. destruct (_ && _); [|exact Hacc].
    intros k0 l0. destruct (String.eqb_spec (rstrip_dot (rname a)) k0) as [->|Hne].
    - rewrite DictFacts.get_set_same. intros [= <-]. eauto.
    - rewrite DictFacts.get_set_other by assumption. apply Hacc. }
  apply G. simpl. discriminate.
Qed.

Section WalkSteps.

Context {World : Type} {net : Network World}.

(** C2. When the cache entry of [domain] holds an A bucket, [resolve]
    returns exactly the cached list in its first round and the state is
    the one it started from: nothing was sent (the log has not grown,
    the world has not moved) and the cache is unchanged. *)
Theorem resolve_cache_hit (fuel : nat) (domain : string) (st : State World)
    (ips : list string) :
  cache_A domain (cache st) = Some ips ->
  resolve (S fuel) domain st = (Return (Some ips), st).
Proof. intros H. simpl. now rewrite H. Qed.

(** C10. At a suffix whose NS bucket is cached while none of the listed
    nameservers is a key of the cached NS_IP mapping, the walk goes on to
    the remaining suffixes with the server it had and the state it had:
    no query is logged and the walk does not fail at this suffix. *)
Theorem cached_ns_without_glue_keeps_server (curr_domain : string)
    (rest : list string) (server : string) (st : State World)
    (ns_cache : list string) :
  cache_NS curr_domain (cache st) = Some ns_cache ->
  (forall ns, In ns ns_cache ->
              Dict.get ns (cache_NS_IP curr_domain (cache st)) = None) ->
  delegation_walk (curr_domain :: rest) server st =
  delegation_walk rest server st.
Proof.
  intros Hns Hglue. simpl. rewrite Hns.
  apply first_with_ip_none in Hglue. now rewrite Hglue.
Qed.

End WalkSteps.

(** C2 at example.com with 1.2.3.4 cached: the answer comes from the
    cache whatever the world would have said. *)
Lemma resolve_cache_hit_witness :
  resolve 1 "example.com"
    (start [("example.com", [A ["1.2.3.4"]])] [ok [] [] []]) =
  (Return (Some ["1.2.3.4"]),
   start [("example.com", [A ["1.2.3.4"]])] [ok [] [] []]).
Proof. apply resolve_cache_hit. reflexivity. Defined.

(** C10 where b.c lists ns1.b.c but holds no address for it: the
    server chosen at c stays in use for a.b.c. *)
Lemma cached_ns_without_glue_witness :
  delegation_walk ["b.c"; "a.b.c"] "1.1.1.1"
    (start [("b.c", [NS ["ns1.b.c"]; NS_IP [("other", ["9.9.9.9"])]])] []) =
  delegation_walk ["a.b.c"] "1.1.1.1"
    (start [("b.c", [NS ["ns1.b.c"]; NS_IP [("other", ["9.9.9.9"])]])] []).
Proof.
  apply (cached_ns_without_glue_keeps_server "b.c" ["a.b.c"] "1.1.1.1" _ ["ns1.b.c"]).
  - reflexivity.
  - intros ns [<-|[]]. reflexivity.
Defined.

(** ** Removing the N-th record *)

Lemma list_cache_pairs (c : Cache) :
  list_cache c = map (fun p => (fst p, kind_of (snd p))) (cache_pairs c).
Proof.
  induction c as [|[d e] r IH]; simpl; [reflexivity|].
  unfold list_cache, cache_pairs in *. simpl.
  rewrite map_app, map_map. simpl. now rewrite IH.
Qed.

Lemma remove_at_app_l {T} (n : nat) (l1 l2 : list T) :
  (n < length l1)%nat -> remove_at n (l1 ++ l2) = remove_at n l1 ++ l2.
Proof.
  intros H. unfold remove_at.
  rewrite firstn_app, skipn_app.
  replace (n - length l1)%nat with 0%nat by lia.
  replace (S n - length l1)%nat with 0%nat by lia.
  simpl. now rewrite app_nil_r, <- app_assoc.
Qed.

Lemma remove_at_app_r {T} (n : nat) (l1 l2 : list T) :
  (length l1 <= n)%nat ->
  remove_at n (l1 ++ l2) = l1 ++ remove_at (n - length l1) l2.
Proof.
  intros H. unfold remove_at.
  rewrite firstn_app, skipn_app.
  rewrite (firstn_all2 l1) by lia.
  rewrite (skipn_all2 l1) by lia.
  replace (S n - length l1)%nat with (S (n - length l1)) by lia.
  simpl. now rewrite <- app_assoc.
Qed.

Lemma remove_at_map {T U} (f : T -> U) (n : nat) (l : list T) :
  map f (remove_at n l) = remove_at n (map f l).
Proof.
  unfold remove_at. now rewrite map_app, firstn_map, skipn_map.
Qed.

Lemma entry_del_nth (e : entry) :
  forall n b,
    NoDup (map kind_of e) ->
    nth_error e n = Some b ->
    entry_mem (kind_of b) e = true /\
    entry_del (kind_of b) e = remove_at n e.
Proof.
  unfold entry_mem.
  induction e as [|b0 r IH]; intros [|n] b Hnd Hn; simpl in *; try discriminate.
  - injection Hn as ->.
    destruct (kind_eqb_spec (kind_of b) (kind_of b)); [|congruence]. auto.
  - inversion Hnd as [|? ? Hnot Hnd']; subst.
    destruct (kind_eqb_spec (kind_of b) (kind_of b0)) as [E|E].
    + exfalso. apply Hnot. rewrite <- E.
      apply in_map. eapply nth_error_In; eauto.
    + destruct (IH n b Hnd' Hn) as [Hm Hd]. split; [assumption|].
      rewrite Hd. reflexivity.
Qed.

Lemma cache_pairs_key (c : Cache) (d : string) (b : bucket) :
  In (d, b) (cache_pairs c) -> In d (Dict.keys c).
Proof.
  unfold cache_pairs, Dict.keys. rewrite in_flat_map.
  intros [[d' e] [Hin Hb]]. simpl in Hb. apply in_map_iff in Hb.
  destruct Hb as [b' [[= -> ->] _]].
  apply in_map_iff. now exists (d, e).
Qed.

Lemma cache_wf_tail (p : string * entry) (c : Cache) :
  cache_wf (p :: c) -> cache_wf c.
Proof.
  intros [Hk He]. split.
  - now inversion Hk.
  - intros d e Hin. apply (He d e). now right.
Qed.

Lemma without_nth (c : Cache) :
  forall n d b,
    cache_wf c ->
    nth_error (cache_pairs c) n = Some (d, b) ->
    entry_mem (kind_of b) (cache_entry d c) = true /\
    cache_pairs (without d (kind_of b) c) = remove_at n (cache_pairs c).
Proof.
  induction c as [|[d0 e0] r IH]; intros n d b Hwf Hn.
  - destruct n; discriminate.
  - change (cache_pairs ((d0, e0) :: r))
      with (map (pair d0) e0 ++ cache_pairs r) in *.
    destruct (Nat.ltb_spec n (length (map (pair d0) e0))) as [Hlt|Hge].
    + rewrite nth_error_app1 in Hn by assumption.
      rewrite nth_error_map in Hn.
      destruct (nth_error e0 n) as [b'|] eqn:Hb; [|discriminate].
      injection Hn as <- <-.
      assert (Hnd : NoDup (map kind_of e0))
        by (apply (proj2 Hwf d0); now left).
      destruct (entry_del_nth e0 n b' Hnd Hb) as [Hm Hd].
      unfold without, cache_entry. simpl. rewrite String.eqb_refl.
      split; [assumption|].
      rewrite remove_at_app_l by assumption.
      rewrite <- remove_at_map, <- Hd.
      destruct (entry_del (kind_of b') e0); simpl.
      * now rewrite String.eqb_refl.
      * reflexivity.
    + rewrite nth_error_app2 in Hn by assumption.
      assert (Hd : d <> d0).
      { intros ->. destruct Hwf as [Hk _]. inversion Hk as [|? ? Hnot _]; subst.
        apply Hnot. eapply cache_pairs_key. eapply nth_error_In; eauto. }
      destruct (IH _ d b (cache_wf_tail _ _ Hwf) Hn) as [Hm Hp].
      assert (E : cache_entry d ((d0, e0) :: r) = cache_entry d r).
      { unfold cache_entry. simpl. now destruct (String.eqb_spec d d0). }
      rewrite E. split; [assumption|].
      rewrite remove_at_app_r by assumption. rewrite <- Hp.
      unfold without. rewrite E. simpl.
      destruct (String.eqb_spec d d0); [contradiction|].
      destruct (entry_del (kind_of b) (cache_entry d r)); simpl.
      * destruct (String.eqb_spec d d0); [contradiction|]. reflexivity.
      * reflexivity.
Qed.

Lemma get_without_other (d d' : string) (k : kind) (c : Cache) :
  d <> d' -> Dict.get d' (without d k c) = Dict.get d' c.
Proof.
  intros Hne. unfold without.
  assert (G : forall (x : Cache), Dict.get d' (Dict.del d x) = Dict.get d' x).
  { induction x as [|[k0 v0] x IH]; simpl; [reflexivity|].
    destruct (String.eqb_spec d k0) as [->|Hk]; simpl.
    - destruct (String.eqb_spec d' k0); congruence.
    - now rewrite IH. }
  destruct (entry_del k (cache_entry d c)); rewrite ?G;
    now apply DictFacts.get_set_other.
Qed.

Lemma get_without_last (d : string) (b : bucket) (c : Cache) :
  NoDup (Dict.keys c) ->
  cache_entry d c = [b] ->
  Dict.get d (without d (kind_of b) c) = None.
Proof.
  intros Hnd He. unfold without. rewrite He. simpl.
  destruct (kind_eqb_spec (kind_of b) (kind_of b)); [|congruence].
  clear e. unfold cache_entry in He.
  induction c as [|[k0 v0] r IH]; simpl in *; [discriminate|].
  inversion Hnd as [|? ? Hnot Hnd']; subst.
  destruct (String.eqb_spec d k0) as [->|Hk]; simpl.
  - rewrite String.eqb_refl. now apply DictFacts.get_none_not_in.
  - destruct (String.eqb_spec d k0); [contradiction|]. simpl.
    destruct (String.eqb_spec d k0); [contradiction|]. now apply IH.
Qed.

(** C9. On a cache that is a dictionary of dictionaries (no repeated
    key), [remove_cache_N N] with [1 <= N <= count] reports the N-th pair
    of the listing as removed, the pairs left are the old ones without
    the N-th, in the same order and with the same values, every other
    domain keeps its entry, and the domain of the removed pair is no
    longer a key when that pair was its only bucket.  With [N] outside
    that range the cache is returned as it was together with the
    invalid-index message. *)
Theorem remove_cache_N_spec (N : Z) (c : Cache) :
  cache_wf c ->
  let count := Z.of_nat (length (list_cache c)) in
  ((1 <= N <= count)%Z ->
   exists domain b,
     nth_error (cache_pairs c) (Z.to_nat (N - 1)) = Some (domain, b) /\
     snd (remove_cache_N N c) = Removed N domain (kind_of b) /\
     cache_pairs (fst (remove_cache_N N c)) =
       remove_at (Z.to_nat (N - 1)) (cache_pairs c) /\
     (forall d', domain <> d' ->
                 Dict.get d' (fst (remove_cache_N N c)) = Dict.get d' c) /\
     (cache_entry domain c = [b] ->
      Dict.get domain (fst (remove_cache_N N c)) = None)) /\
  ((N < 1 \/ N > count)%Z -> remove_cache_N N c = (c, Invalid N)).
Proof.
  intros Hwf count. split.
  - intros Hrange.
    assert (Hlen : (Z.to_nat (N - 1) < length (cache_pairs c))%nat).
    { subst count. rewrite list_cache_pairs, length_map in Hrange. lia. }
    destruct (nth_error (cache_pairs c) (Z.to_nat (N - 1))) as [[d b]|] eqn:Hn;
      [|apply nth_error_None in Hn; lia].
    exists d, b. split; [reflexivity|].
    destruct (without_nth c _ d b Hwf Hn) as [Hm Hp].
    assert (E : remove_cache_N N c = (without d (kind_of b) c, Removed N d (kind_of b))).
    { unfold remove_cache_N. fold count.
      destruct (Z.ltb_spec N 1); [lia|]. destruct (Z.gtb_spec N count); [lia|].
      simpl. rewrite list_cache_pairs, nth_error_map, Hn. simpl.
      rewrite Hm. reflexivity. }
    rewrite E. simpl. repeat split.
    + assumption.
    + intros d' Hd'. now apply get_without_other.
    + intros He. apply get_without_last; [apply Hwf | assumption].
  - intros Hout. unfold remove_cache_N. fold count.
    destruct (Z.ltb_spec N 1); [reflexivity|].
    destruct (Z.gtb_spec N count); [reflexivity|]. lia.
Qed.

(** The listing of [cache_xy] and what the removals give. *)
Example remove_second_of_three :
  list_cache cache_xy = [("x.com", K_NS); ("x.com", K_A); ("y.com", K_A)] /\
  remove_cache_N 2 cache_xy =
    ([("x.com", [NS ["ns.x.com"]]); ("y.com", [A ["2.2.2.2"]])],
     Removed 2 "x.com" K_A) /\
  remove_cache_N 0 cache_xy = (cache_xy, Invalid 0) /\
  remove_cache_N 4 cache_xy = (cache_xy, Invalid 4) /\
  remove_cache_N 3 cache_xy =
    ([("x.com", [NS ["ns.x.com"]; A ["1.1.1.1"]])], Removed 3 "y.com" K_A).
Proof. repeat split. Qed.

Lemma cache_xy_wf : cache_wf cache_xy.
Proof.
  split.
  - repeat constructor; simpl; intuition discriminate.
  - intros d e [[= <- <-]|[[= <- <-]|[]]];
      repeat constructor; simpl; intuition discriminate.
Defined.

(** C9 on the three records of [cache_xy]: removing record 2 leaves
    the other two; record 4 does not exist. *)
Lemma remove_cache_N_witness :
  cache_pairs (fst (remove_cache_N 2 cache_xy)) =
    remove_at 1 (cache_pairs cache_xy) /\
  remove_cache_N 4 cache_xy = (cache_xy, Invalid 4).
Proof.
  destruct (remove_cache_N_spec 2 cache_xy cache_xy_wf) as [H2 _].
  destruct (remove_cache_N_spec 4 cache_xy cache_xy_wf) as [_ H4].
  split.
  - destruct H2 as (d & b & _ & _ & Hp & _); [simpl; lia | exact Hp].
  - apply H4. simpl. lia.
Defined.

(** ** The walk relation is the walk function *)

Section Walk.

Context {World : Type} {net : Network World}.

Lemma delegation_walk_Walk (todo : list string) :
  forall server st res st',
    delegation_walk todo server st = (res, st') ->
    Walk todo server st res st'.
Proof.
  induction todo as [|curr rest IH]; simpl; intros server st res st' H.
  - injection H as <- <-. constructor.
  - destruct (cache_NS curr (cache st)) as [ns_cache|] eqn:Hns.
    + destruct (first_with_ip ns_cache _) as [[|ip ips]|] eqn:Hip.
      * injection H as <- <-. eapply Walk_cached_empty_list; eauto.
      * eapply Walk_cached; eauto.
      * eapply Walk_cached_no_ip; eauto.
    + destruct (get_dns_record curr server Q_NS st) as [[r|] st1] eqn:Hq.
      2:{ injection H as <- <-. now apply Walk_no_response. }
      destruct (ns_answers_of r) as [|n ns] eqn:Hans.
      { injection H as <- <-. eapply Walk_no_ns; eauto. }
      rewrite <- Hans in *.
      assert (Hne : ns_answers_of r <> []) by (rewrite Hans; discriminate).
      destruct (first_with_ip _ _) as [l|] eqn:Hip.
      * destruct (first_with_ip_some _ _ _ Hip) as (sk & ns0 & af & _ & _ & Hg).
        destruct (ns_ips_of_singleton _ _ _ _ Hg) as [ip ->].
        eapply Walk_glue; eauto.
      * destruct (lookup_any _ _) as [[ip|] st3] eqn:Hl.
        -- eapply Walk_lookup; eauto.
        -- injection H as <- <-. eapply Walk_lookup_failed; eauto.
Qed.

(** The relation is the function: it holds of no other result. *)
Lemma Walk_delegation_walk todo server st res st' :
  Walk todo server st res st' ->
  delegation_walk todo server st = (res, st').
Proof.
  induction 1; simpl; auto;
    repeat match goal with
           | H : cache_NS _ _ = _ |- _ => rewrite H; clear H
           | H : first_with_ip _ _ = _ |- _ => rewrite H; clear H
           | H : get_dns_record _ _ _ _ = _ |- _ => rewrite H; clear H
           end; auto.
  - now rewrite H1.
  - destruct (ns_answers_of r) eqn:E; [contradiction|]. assumption.
  - destruct (ns_answers_of r) eqn:E; [contradiction|]. rewrite <- E in *.
    now rewrite H3.
  - destruct (ns_answers_of r) eqn:E; [contradiction|]. rewrite <- E in *.
    now rewrite H3.
Qed.

End Walk.

(** ** What a walk leaves behind *)

Section Growth.

Context {World : Type} {net : Network World}.

Lemma grown_refl (st : State World) : grown st st [].
Proof. unfold grown. now rewrite app_nil_r. Qed.

Lemma grown_trans (st1 st2 st3 : State World) (n1 n2 : list (Cache * event)) :
  grown st1 st2 n1 -> grown st2 st3 n2 -> grown st1 st3 (n1 ++ n2).
Proof. unfold grown. intros H1 H2. now rewrite H2, H1, app_assoc. Qed.

Lemma grown_cons (st1 st2 st3 : State World) x (l : list (Cache * event)) :
  grown st1 st2 [x] -> grown st2 st3 l -> grown st1 st3 (x :: l).
Proof. apply (grown_trans st1 st2 st3 [x] l). Qed.

Lemma grown_store_delegation (st st' : State World) d names g new :
  grown (store_delegation d names g st) st' new <-> grown st st' new.
Proof. reflexivity. Qed.

Lemma get_dns_record_grown d s rt (st : State World) result st' :
  get_dns_record d s rt st = (result, st') ->
  cache st' = cache st /\ grown st st' [(cache st, EvQuery d s rt result)].
Proof. apply get_dns_record_inv. Qed.

Lemma lookup_any_grown names (st : State World) res st' :
  lookup_any names st = (res, st') ->
  cache st' = cache st /\
  exists failed hit,
    grown st st' (map (pair (cache st)) (lookups_of failed hit)) /\
    match res, hit with
    | Some ip, Some (ns, ip') => ip' = ip /\ exists rest, names = failed ++ ns :: rest
    | None, None => names = failed
    | _, _ => False
    end.
Proof. apply lookup_any_inv. Qed.

Lemma lookup_any_some names (st : State World) ip st' :
  lookup_any names st = (Some ip, st') ->
  cache st' = cache st /\
  exists failed ns rest,
    names = failed ++ ns :: rest /\
    grown st st' (map (pair (cache st)) (lookups_of failed (Some (ns, ip)))).
Proof.
  intros H. apply lookup_any_grown in H.
  destruct H as [Hc (failed & [[ns ip']|] & Hg & Hres)]; [|contradiction].
  destruct Hres as [-> [rest ->]]. eauto 6.
Qed.

Lemma lookup_any_none names (st : State World) st' :
  lookup_any names st = (None, st') ->
  cache st' = cache st /\
  grown st st' (map (pair (cache st)) (lookups_of names None)).
Proof.
  intros H. apply lookup_any_grown in H.
  destruct H as [Hc (failed & [[ns ip']|] & Hg & Hres)]; [contradiction|].
  subst. auto.
Qed.

End Growth.

(** Unpack what the outside calls of a walk step did: [Hcq], [Hgq] for
    the query, [Hcl], [Hgl] for the lookups. *)
Ltac outside :=
  repeat match goal with
         | H : get_dns_record _ _ _ _ = _ |- _ =>
             apply get_dns_record_grown in H; destruct H as [Hcq Hgq]
         | H : lookup_any _ _ = (Some _, _) |- _ =>
             let failed := fresh "failed" in
             let ns := fresh "ns" in
             let after := fresh "after" in
             apply lookup_any_some in H;
             destruct H as [Hcl (failed & ns & after & Hnames & Hgl)];
             simpl in Hcl; apply grown_store_delegation in Hgl
         | H : lookup_any _ _ = (None, _) |- _ =>
             apply lookup_any_none in H; destruct H as [Hcl Hgl];
             simpl in Hcl; apply grown_store_delegation in Hgl
         end.

Section WalkInvariants.

Context {World : Type} {net : Network World}.

(** A property of caches that survives the store of a delegation under
    a domain without NS bucket holds of the cache after the walk and of
    the cache at every event of the walk. *)
Lemma Walk_preserves (Q : Cache -> Prop) :
  (forall curr names g c,
      Q c -> cache_NS curr c = None ->
      Q (cache_store curr (NS_IP g) (cache_store curr (NS names) c))) ->
  forall todo server st res st',
    Walk todo server st res st' ->
    Q (cache st) ->
    Q (cache st') /\
    exists new, grown st st' new /\ forall c e, In (c, e) new -> Q c.
Proof.
  intros HQ. induction 1; intros Hst; outside.
  - split; [assumption|]. exists []. split; [apply grown_refl | intros ? ? []].
  - auto.
  - split; [assumption|]. exists []. split; [apply grown_refl | intros ? ? []].
  - auto.
  - split; [congruence|]. eexists. split; [exact Hgq|].
    intros c e [[= <- <-]|[]]. assumption.
  - split; [congruence|]. eexists. split; [exact Hgq|].
    intros c e [[= <- <-]|[]]. assumption.
  - destruct IHWalk as [Hend (new & Hg & Hnew)].
    { simpl. apply HQ; congruence. }
    split; [assumption|]. eexists. split.
    + eapply grown_cons; [exact Hgq|].
      apply grown_store_delegation in Hg. exact Hg.
    + intros c e [[= <- <-]|Hin]; [assumption | eauto].
  - assert (Q2 : Q (cache st3)).
    { rewrite Hcl. apply HQ; congruence. }
    destruct IHWalk as [Hend (new & Hg & Hnew)]; [assumption|].
    split; [assumption|]. eexists. split.
    + eapply grown_cons; [exact Hgq|]. eapply grown_trans; [exact Hgl | exact Hg].
    + intros c e [[= <- <-]|Hin]; [assumption|].
      apply in_app_or in Hin. destruct Hin as [Hin|Hin]; [|eauto].
      apply in_map_iff in Hin. destruct Hin as (e' & [= <- <-] & _).
      simpl. rewrite <- Hcl. exact Q2.
  - assert (Q2 : Q (cache st3)).
    { rewrite Hcl. apply HQ; congruence. }
    split; [assumption|]. eexists. split.
    + eapply grown_cons; [exact Hgq | exact Hgl].
    + intros c e [[= <- <-]|Hin]; [assumption|].
      apply in_map_iff in Hin. destruct Hin as (e' & [= <- <-] & _).
      simpl. rewrite <- Hcl. exact Q2.
Qed.

(** The walk writes no A bucket. *)
Lemma Walk_keeps_A todo server (st : State World) res st' (d : string) :
  Walk todo server st res st' ->
  cache_A d (cache st') = cache_A d (cache st) /\
  exists new, grown st st' new /\
              forall c e, In (c, e) new -> cache_A d c = cache_A d (cache st).
Proof.
  intros W.
  apply (Walk_preserves (fun c => cache_A d c = cache_A d (cache st)))
    with (1 := fun curr names g c Hc _ =>
                 eq_trans (eq_trans (cache_A_store curr d (NS_IP g) _ ltac:(discriminate))
                                    (cache_A_store curr d (NS names) _ ltac:(discriminate)))
                          Hc)
         (2 := W).
  reflexivity.
Qed.

(** An NS bucket that is in the cache stays as it is, and so does the
    NS_IP mapping of its domain. *)
Lemma Walk_keeps_NS todo server (st : State World) res st' (d : string)
    (names : list string) :
  Walk todo server st res st' ->
  cache_NS d (cache st) = Some names ->
  let kept c := cache_NS d c = Some names /\
                cache_NS_IP d c = cache_NS_IP d (cache st) in
  kept (cache st') /\
  exists new, grown st st' new /\ forall c e, In (c, e) new -> kept c.
Proof.
  intros W Hd kept.
  apply (Walk_preserves kept) with (2 := W); [|split; auto].
  intros curr ns g c [Hn Hg] Hcurr.
  assert (curr <> d) by congruence.
  assert (E : String.eqb curr d = false) by now apply String.eqb_neq.
  split.
  - rewrite cache_NS_store by discriminate. rewrite cache_NS_store_NS, E. exact Hn.
  - rewrite cache_NS_IP_store_NS_IP, E.
    rewrite cache_NS_IP_store by discriminate. exact Hg.
Qed.

End WalkInvariants.

(** ** After a delegation response *)

Section Delegation.

Context {World : Type} {net : Network World}.

Lemma stored_after_store (curr : string) (names : list string)
    (g : Dict.t (list string)) (c : Cache) :
  cache_NS curr (cache_store curr (NS_IP g) (cache_store curr (NS names) c))
    = Some names /\
  cache_NS_IP curr (cache_store curr (NS_IP g) (cache_store curr (NS names) c))
    = g.
Proof.
  split.
  - rewrite cache_NS_store by discriminate.
    now rewrite cache_NS_store_NS, String.eqb_refl.
  - now rewrite cache_NS_IP_store_NS_IP, String.eqb_refl.
Qed.

(** The buckets stored for a delegation are there at every later event
    of the walk and at its end. *)
Lemma delegation_stored (curr : string) (rest : list string)
    (server : string) (st : State World) (r : response) (st1 : State World)
    (res : walk_result) (st' : State World) :
  cache_NS curr (cache st) = None ->
  get_dns_record curr server Q_NS st = (Some r, st1) ->
  ns_answers_of r <> [] ->
  delegation_walk (curr :: rest) server st = (res, st') ->
  let stored c :=
    cache_NS curr c = Some (ns_answers_of r) /\
    cache_NS_IP curr c = ns_ips_of (ns_answers_of r) r in
  stored (cache st') /\
  exists later,
    grown st st' ((cache st, EvQuery curr server Q_NS (Some r)) :: later) /\
    forall c e, In (c, e) later -> stored c.
Proof.
  intros Hns Hq Hne Hw stored.
  pose proof (stored_after_store curr (ns_answers_of r)
                (ns_ips_of (ns_answers_of r) r) (cache st1)) as [S1 S2].
  apply delegation_walk_Walk in Hw.
  inversion Hw; subst; try congruence;
    match goal with
    | H : get_dns_record _ _ _ _ = _ |- _ =>
        rewrite Hq in H; injection H as ? ?; subst
    end; try contradiction.
  - (* glue *)
    match goal with W : Walk rest _ _ _ _ |- _ =>
      destruct (Walk_keeps_NS _ _ _ _ _ curr _ W S1) as [[K1 K2] (new & Hg & Hnew)]
    end.
    simpl in K2. rewrite S2 in K2.
    apply get_dns_record_grown in Hq. destruct Hq as [_ Hq].
    split; [split; assumption|].
    exists new. split.
    + eapply grown_cons; [exact Hq|]. exact Hg.
    + intros c e Hin. destruct (Hnew c e Hin) as [? E]. simpl in E.
      rewrite S2 in E. split; assumption.
  - (* a lookup answered *)
    match goal with L : lookup_any _ _ = _ |- _ =>
      apply lookup_any_grown in L; destruct L as [Hc3 (failed & hit & Hl & _)]
    end.
    simpl in Hc3.
    match goal with W : Walk rest _ _ _ _ |- _ =>
      rewrite <- Hc3 in S1;
      destruct (Walk_keeps_NS _ _ _ _ _ curr _ W S1) as [[K1 K2] (new & Hg & Hnew)]
    end.
    rewrite Hc3 in K2, S1. rewrite S2 in K2.
    apply get_dns_record_grown in Hq. destruct Hq as [_ Hq].
    split; [split; assumption|].
    eexists. split.
    + eapply grown_cons; [exact Hq|].
      eapply grown_trans; [|exact Hg].
      apply grown_store_delegation in Hl. exact Hl.
    + intros c e Hin. apply in_app_or in Hin. destruct Hin as [Hin|Hin].
      * apply in_map_iff in Hin. destruct Hin as (e' & [= <- <-] & _).
        split; assumption.
      * destruct (Hnew c e Hin) as [? E]. rewrite Hc3 in E. simpl in E.
        rewrite S2 in E. split; assumption.
  - (* no lookup answered *)
    match goal with L : lookup_any _ _ = _ |- _ =>
      apply lookup_any_grown in L; destruct L as [Hc3 (failed & hit & Hl & _)]
    end.
    simpl in Hc3.
    apply get_dns_record_grown in Hq. destruct Hq as [_ Hq].
    split; [unfold stored; rewrite Hc3; split; assumption|].
    eexists. split.
    + eapply grown_cons; [exact Hq|].
      apply grown_store_delegation in Hl. exact Hl.
    + intros c e Hin.
      apply in_map_iff in Hin. destruct Hin as (e' & [= <- <-] & _).
      split; assumption.
Qed.

End Delegation.

Section NextServer.

Context {World : Type} {net : Network World}.


End NextServer.

(** ** Suffixes of a name *)

Lemma split_dot_cons (s : string) : exists p ps, split_dot s = p :: ps.
Proof.
  destruct s as [|c s]; simpl; [eauto|].
  destruct (is_dot c); [eauto|]. destruct (split_dot s); eauto.
Qed.

Lemma join_split_dot (s : string) : join_dot (split_dot s) = s.
Proof.
  unfold join_dot. induction s as [|c s IH]; simpl; [reflexivity|].
  destruct (split_dot_cons s) as (p & ps & E). rewrite E in *.
  destruct (is_dot c) eqn:Hc.
  - apply Ascii.eqb_eq in Hc. subst c.
    change (String.concat "." ("" :: p :: ps))
      with (String "." (String.concat "." (p :: ps))).
    now rewrite IH.
  - destruct ps as [|q qs]; simpl in *; now rewrite IH.
Qed.

Lemma length_append (s1 s2 : string) :
  String.length (s1 ++ s2)%string = (String.length s1 + String.length s2)%nat.
Proof. induction s1; simpl; auto. Qed.

Lemma length_join_cons (x y : string) (l : list string) :
  (String.length (join_dot (y :: l)) < String.length (join_dot (x :: y :: l)))%nat.
Proof.
  unfold join_dot.
  change (String.concat "." (x :: y :: l))
    with (x ++ "." ++ String.concat "." (y :: l))%string.
  rewrite !length_append. simpl. lia.
Qed.

Lemma length_join_skipn (l : list string) :
  forall j, (j < length l)%nat ->
            (String.length (join_dot (skipn j l)) <= String.length (join_dot l))%nat.
Proof.
  induction l as [|x l IH]; intros j Hj; simpl in Hj; [lia|].
  destruct j as [|j]; [simpl; lia|]. simpl skipn.
  assert (Hj' : (j < length l)%nat) by lia.
  specialize (IH j Hj').
  destruct l as [|y l]; [simpl in Hj'; lia|].
  pose proof (length_join_cons x y l). lia.
Qed.

Lemma length_suffix_decreases (l : list string) :
  forall i j, (i < j < length l)%nat ->
              (String.length (join_dot (skipn j l)) <
               String.length (join_dot (skipn i l)))%nat.
Proof.
  induction l as [|x l IH]; intros i j Hij; simpl in Hij; [lia|].
  destruct j as [|j]; [lia|]. destruct i as [|i].
  - simpl skipn.
    assert (Hj : (j < length l)%nat) by lia.
    pose proof (length_join_skipn l j Hj).
    destruct l as [|y l]; [simpl in Hj; lia|].
    pose proof (length_join_cons x y l). lia.
  - simpl skipn. apply IH. lia.
Qed.

(** No two suffixes of a name are the same string. *)
Lemma suffixes_NoDup (domain : string) : NoDup (suffixes domain).
Proof.
  unfold suffixes. set (parts := split_dot domain).
  assert (G : forall l, NoDup l -> (forall i, In i l -> (i < length parts)%nat) ->
                        NoDup (map (fun i => join_dot (skipn i parts)) l)).
  { induction l as [|i l IH]; intros Hnd Hlt; simpl; constructor.
    - intros Hin. apply in_map_iff in Hin. destruct Hin as (j & Hj & Hjl).
      inversion Hnd; subst.
      assert (i <> j) by (intros ->; contradiction).
      assert (Hi : (i < length parts)%nat) by (apply Hlt; now left).
      assert (Hj' : (j < length parts)%nat) by (apply Hlt; now right).
      destruct (Nat.lt_total i j) as [L|[L|L]]; [|contradiction|].
      + pose proof (length_suffix_decreases parts i j (conj L Hj')) as D.
        rewrite Hj in D. lia.
      + pose proof (length_suffix_decreases parts j i (conj L Hi)) as D.
        rewrite Hj in D. lia.
    - inversion Hnd; subst. apply IH; auto. intros j Hj. apply Hlt. now right. }
  apply G.
  - apply NoDup_rev, seq_NoDup.
  - intros i Hi. apply in_rev, in_seq in Hi. lia.
Qed.

(** The last suffix visited is the name as it was given. *)
Lemma suffixes_last (domain : string) :
  exists shorter, suffixes domain = shorter ++ [domain].
Proof.
  unfold suffixes. destruct (split_dot_cons domain) as (p & ps & E).
  pose proof (join_split_dot domain) as J. rewrite E in *.
  change (length (p :: ps)) with (S (length ps)).
  change (seq 0 (S (length ps))) with (0%nat :: seq 1 (length ps)).
  simpl rev. rewrite map_app. simpl map at 2.
  change (skipn 0 (p :: ps)) with (p :: ps). rewrite J. eauto.
Qed.

(** ** The walk on a cache that knows nothing *)

Lemma map_snd_pair {X Y} (c : X) (l : list Y) : map snd (map (pair c) l) = l.
Proof. rewrite map_map. simpl. apply map_id. Qed.

Lemma ns_queries_app (l1 l2 : list event) :
  ns_queries (l1 ++ l2) = ns_queries l1 ++ ns_queries l2.
Proof. apply flat_map_app. Qed.

Lemma ns_queries_lookups failed hit : ns_queries (lookups_of failed hit) = [].
Proof.
  unfold lookups_of. rewrite ns_queries_app.
  replace (ns_queries (map (fun ns => EvLookup (rstrip_dot ns) None) failed))
    with (@nil (string * string)) by (induction failed; simpl; auto).
  now destruct hit as [[? ?]|].
Qed.


Section EmptyCache.

Context {World : Type} {net : Network World}.


End EmptyCache.

(** ** Properties of the log *)

Lemma stops_cons (P : Prop) x l :
  answered (snd x) -> stops_at_failure P l -> stops_at_failure P (x :: l).
Proof.
  intros Hx [Hl|[HP (b & c & d & s & rt & -> & Hb)]].
  - left. now constructor.
  - right. split; [assumption|].
    exists (x :: b), c, d, s, rt. split; [reflexivity | now constructor].
Qed.

Lemma stops_app (P : Prop) l1 l2 :
  all_answered l1 -> stops_at_failure P l2 -> stops_at_failure P (l1 ++ l2).
Proof.
  induction l1 as [|x l1 IH]; simpl; intros H1 H2; [assumption|].
  inversion H1; subst. apply stops_cons; auto.
Qed.

Lemma stops_failed (P : Prop) c d s rt :
  P -> stops_at_failure P [(c, EvQuery d s rt None)].
Proof.
  intros HP. right. split; [assumption|].
  exists [], c, d, s, rt. split; [reflexivity | constructor].
Qed.

Lemma stops_weaken (P Q : Prop) l :
  (P -> Q) -> stops_at_failure P l -> stops_at_failure Q l.
Proof. intros HPQ [H|[HP H]]; [now left | right; auto]. Qed.

Lemma lookups_answered c failed hit :
  all_answered (map (pair c) (lookups_of failed hit)).
Proof.
  apply Forall_forall. intros [c' e] Hin. apply in_map_iff in Hin.
  destruct Hin as (e' & [= <- <-] & Hin). simpl.
  unfold lookups_of in Hin. apply in_app_or in Hin. destruct Hin as [Hin|Hin].
  - apply in_map_iff in Hin. destruct Hin as (n & <- & _). exact I.
  - destruct hit as [[n ip]|]; [destruct Hin as [<-|[]]; exact I | destruct Hin].
Qed.

Lemma lookups_absent c failed hit :
  Forall bucket_absent (map (pair c) (lookups_of failed hit)).
Proof.
  apply Forall_forall. intros [c' e] Hin. apply in_map_iff in Hin.
  destruct Hin as (e' & [= <- <-] & Hin). unfold bucket_absent. simpl.
  unfold lookups_of in Hin. apply in_app_or in Hin. destruct Hin as [Hin|Hin].
  - apply in_map_iff in Hin. destruct Hin as (n & <- & _). exact I.
  - destruct hit as [[n ip]|]; [destruct Hin as [<-|[]]; exact I | destruct Hin].
Qed.

(** A failure that is last is the only one. *)
Lemma stops_at_failure_last (P : Prop) l before c d s rt after :
  stops_at_failure P l ->
  l = before ++ (c, EvQuery d s rt None) :: after ->
  after = [] /\ P.
Proof.
  intros [Hall|[HP (b & c' & d' & s' & rt' & -> & Hb)]] E.
  - exfalso. subst l. apply Forall_app in Hall. destruct Hall as [_ Hall].
    inversion Hall as [|? ? Hx _]; subst. exact Hx.
  - destruct after as [|y after]; [auto|]. exfalso.
    destruct (exists_last (l := y :: after)) as (a' & z & Ha); [discriminate|].
    rewrite Ha in E.
    change (before ++ (c, EvQuery d s rt None) :: a' ++ [z])
      with (before ++ ((c, EvQuery d s rt None) :: a') ++ [z]) in E.
    rewrite app_assoc in E. apply app_inj_tail in E. destruct E as [E _].
    subst b. apply Forall_app in Hb. destruct Hb as [_ Hb].
    inversion Hb as [|? ? Hx _]; subst. exact Hx.
Qed.

Section WalkLog.

Context {World : Type} {net : Network World}.

Lemma grown_inj (st st' : State World) n1 n2 :
  grown st st' n1 -> grown st st' n2 -> n1 = n2.
Proof. unfold grown. intros H1 H2. rewrite H1 in H2. now apply app_inv_head in H2. Qed.

(** The log of a walk: a failed exchange ends it without a server, and
    each of its queries is an NS query for a suffix without NS bucket. *)
Lemma Walk_log todo server (st : State World) res st' :
  Walk todo server st res st' ->
  exists new,
    grown st st' new /\
    stops_at_failure (res = WalkNone) new /\
    Forall bucket_absent new.
Proof.
  induction 1; outside.
  - exists []. split; [apply grown_refl|]. split; [left|]; constructor.
  - assumption.
  - exists []. split; [apply grown_refl|]. split; [left|]; constructor.
  - assumption.
  - eexists. split; [exact Hgq|]. split.
    + now apply stops_failed.
    + repeat constructor. assumption.
  - eexists. split; [exact Hgq|]. split.
    + left. repeat constructor.
    + repeat constructor. assumption.
  - destruct IHWalk as (new & Hg & Hs & Ha).
    apply grown_store_delegation in Hg.
    eexists. split; [eapply grown_cons; [exact Hgq | exact Hg]|]. split.
    + apply stops_cons; [exact I | assumption].
    + constructor; assumption.
  - destruct IHWalk as (new & Hg & Hs & Ha).
    eexists. split.
    { eapply grown_cons; [exact Hgq|]. eapply grown_trans; [exact Hgl | exact Hg]. }
    split.
    + apply stops_cons; [exact I|]. apply stops_app; [|assumption].
      apply lookups_answered.
    + constructor; [assumption|]. apply Forall_app. split; [|assumption].
      apply lookups_absent.
  - eexists. split; [eapply grown_cons; [exact Hgq | exact Hgl]|]. split.
    + left. constructor; [exact I|]. apply lookups_answered.
    + constructor; [assumption|]. apply lookups_absent.
Qed.

End WalkLog.

(** ** The runs of [resolve] *)

Section Resolution.

Context {World : Type} {net : Network World}.

Lemma resolve_Resolve (fuel : nat) :
  forall domain st out st',
    resolve fuel domain st = (out, st') -> Resolve fuel domain st out st'.
Proof.
  induction fuel as [|fuel IH]; simpl; intros domain st out st' H.
  - injection H as <- <-. constructor.
  - destruct (cache_A domain (cache st)) as [ips|] eqn:HA.
    { injection H as <- <-. now constructor. }
    destruct (delegation_walk (suffixes domain) ROOT_SERVER st)
      as [[server| |] st1] eqn:Hw; apply delegation_walk_Walk in Hw.
    + destruct (get_dns_record domain server Q_A st1) as [[r|] st2] eqn:Hq.
      * destruct (find_cname (answers r)) as [cname|] eqn:Hc.
        { eapply Resolve_alias; eauto. }
        destruct (ip_addresses_of (answers r)) as [|ip ips] eqn:Hi.
        { injection H as <- <-. eapply Resolve_no_address; eauto. }
        injection H as <- <-. rewrite <- Hi.
        eapply Resolve_answer; eauto. rewrite Hi. discriminate.
      * injection H as <- <-. eapply Resolve_no_response; eauto.
    + injection H as <- <-. now apply Resolve_walk_none.
    + injection H as <- <-. now apply Resolve_walk_error.
Qed.

(** The log of a run: a failed exchange ends it with [None], and every
    query asks for a bucket the cache does not hold at that moment. *)
Lemma Resolve_log fuel domain (st : State World) out st' :
  Resolve fuel domain st out st' ->
  exists new,
    grown st st' new /\
    stops_at_failure (out = Return None) new /\
    Forall bucket_absent new.
Proof.
  induction 1;
    try match goal with
        | W : Walk _ _ _ _ _ |- _ =>
            pose proof (Walk_keeps_A _ _ _ _ _ domain W) as [HkA _];
            destruct (Walk_log _ _ _ _ _ W) as (wnew & Hgw & Hsw & Haw)
        end; outside.
  - exists []. split; [apply grown_refl|]. split; [left|]; constructor.
  - exists []. split; [apply grown_refl|]. split; [left|]; constructor.
  - exists wnew. repeat split; auto.
    eapply stops_weaken; [|exact Hsw]. reflexivity.
  - exists wnew. repeat split; auto.
    destruct Hsw as [Hsw|[Hsw _]]; [now left | discriminate].
  - eexists. split; [eapply grown_trans; [exact Hgw | exact Hgq]|].
    assert (Hclean : all_answered wnew)
      by (destruct Hsw as [Hsw|[Hsw _]]; [assumption | discriminate]).
    split.
    + apply stops_app; [assumption|]. now apply stops_failed.
    + apply Forall_app. split; [assumption|].
      repeat constructor. unfold bucket_absent. simpl. congruence.
  - destruct IHResolve as (new & Hg & Hs & Ha).
    eexists. split.
    { eapply grown_trans; [exact Hgw|]. eapply grown_cons; [exact Hgq | exact Hg]. }
    assert (Hclean : all_answered wnew)
      by (destruct Hsw as [Hsw|[Hsw _]]; [assumption | discriminate]).
    split.
    + apply stops_app; [assumption|]. apply stops_cons; [exact I | assumption].
    + apply Forall_app. split; [assumption|].
      constructor; [|assumption]. unfold bucket_absent. simpl. congruence.
  - eexists. split; [eapply grown_trans; [exact Hgw | exact Hgq]|].
    assert (Hclean : all_answered wnew)
      by (destruct Hsw as [Hsw|[Hsw _]]; [assumption | discriminate]).
    split.
    + left. apply Forall_app. split; [assumption|]. repeat constructor.
    + apply Forall_app. split; [assumption|].
      repeat constructor. unfold bucket_absent. simpl. congruence.
  - eexists. split; [eapply grown_trans; [exact Hgw | exact Hgq]|].
    assert (Hclean : all_answered wnew)
      by (destruct Hsw as [Hsw|[Hsw _]]; [assumption | discriminate]).
    split.
    + left. apply Forall_app. split; [assumption|]. repeat constructor.
    + apply Forall_app. split; [assumption|].
      repeat constructor. unfold bucket_absent. simpl. congruence.
Qed.

End Resolution.

Section ResolutionInvariants.

Context {World : Type} {net : Network World}.

(** A property of caches that survives both kinds of store holds at
    every event of a run and at its end. *)
Lemma Resolve_preserves (Q : Cache -> Prop) :
  (forall curr names g c,
      Q c -> cache_NS curr c = None ->
      Q (cache_store curr (NS_IP g) (cache_store curr (NS names) c))) ->
  (forall d ips c, Q c -> Q (cache_store d (A ips) c)) ->
  forall fuel domain (st : State World) out st',
    Resolve fuel domain st out st' ->
    Q (cache st) ->
    Q (cache st') /\
    exists new, grown st st' new /\ forall c e, In (c, e) new -> Q c.
Proof.
  intros HQ HA. induction 1; intros Hst;
    try match goal with
        | W : Walk _ _ _ _ _ |- _ =>
            destruct (Walk_preserves Q HQ _ _ _ _ _ W Hst)
              as [Q1 (wnew & Hgw & Hw)]
        end; outside.
  - split; [assumption|]. exists []. split; [apply grown_refl | intros ? ? []].
  - split; [assumption|]. exists []. split; [apply grown_refl | intros ? ? []].
  - eauto.
  - eauto.
  - split; [congruence|]. eexists.
    split; [eapply grown_trans; [exact Hgw | exact Hgq]|].
    intros c e Hin. apply in_app_or in Hin.
    destruct Hin as [Hin|[[= <- <-]|[]]]; eauto.
  - destruct IHResolve as [Qe (new & Hg & Hn)]; [congruence|].
    split; [assumption|]. eexists. split.
    { eapply grown_trans; [exact Hgw|]. eapply grown_cons; [exact Hgq | exact Hg]. }
    intros c e Hin. apply in_app_or in Hin.
    destruct Hin as [Hin|[[= <- <-]|Hin]]; eauto.
  - split; [congruence|]. eexists.
    split; [eapply grown_trans; [exact Hgw | exact Hgq]|].
    intros c e Hin. apply in_app_or in Hin.
    destruct Hin as [Hin|[[= <- <-]|[]]]; eauto.
  - split; [simpl; apply HA; congruence|]. eexists.
    split; [eapply grown_trans; [exact Hgw | exact Hgq]|].
    intros c e Hin. apply in_app_or in Hin.
    destruct Hin as [Hin|[[= <- <-]|[]]]; eauto.
Qed.

(** An NS bucket that is in the cache is there, unchanged, for the
    whole run. *)
Lemma Resolve_keeps_NS fuel domain (st : State World) out st' d names :
  Resolve fuel domain st out st' ->
  cache_NS d (cache st) = Some names ->
  exists new, grown st st' new /\
              forall c e, In (c, e) new -> cache_NS d c = Some names.
Proof.
  intros R Hd.
  apply (Resolve_preserves (fun c => cache_NS d c = Some names)) with (3 := R);
    [| |assumption].
  - intros curr ns g c Hc Hcurr.
    assert (curr <> d) by congruence.
    rewrite cache_NS_store by discriminate. rewrite cache_NS_store_NS.
    now destruct (String.eqb_spec curr d).
  - intros d' ips c Hc. now rewrite cache_NS_store by discriminate.
Qed.

(** The address buckets during and after a run: none changes while the
    run lasts; at its end either none has changed, or the run ended on an
    A query answered without CNAME and the bucket of the name of that
    query holds the addresses returned. *)
Lemma Resolve_writes_A fuel domain (st : State World) out st' :
  Resolve fuel domain st out st' ->
  exists new,
    grown st st' new /\
    (forall c e x, In (c, e) new -> cache_A x c = cache_A x (cache st)) /\
    ((forall x, cache_A x (cache st') = cache_A x (cache st)) \/
     exists final server r before c,
       new = before ++ [(c, EvQuery final server Q_A (Some r))] /\
       find_cname (answers r) = None /\
       out = Return (Some (ip_addresses_of (answers r))) /\
       forall x, cache_A x (cache st') =
                 if String.eqb final x then Some (ip_addresses_of (answers r))
                 else cache_A x (cache st)).
Proof.
  induction 1;
    try match goal with
        | W : Walk _ _ _ _ _ |- _ =>
            assert (HW : forall x,
                       cache_A x (cache st1) = cache_A x (cache st) /\
                       forall wnew, grown st st1 wnew ->
                                    forall c e, In (c, e) wnew ->
                                                cache_A x c = cache_A x (cache st))
              by (intros x;
                  destruct (Walk_keeps_A _ _ _ _ _ x W) as [K (n & Hgn & Hn)];
                  split; [exact K|];
                  intros wnew Hgw; rewrite (grown_inj _ _ _ _ Hgw Hgn); exact Hn);
            destruct (Walk_log _ _ _ _ _ W) as (wnew & Hgw & _)
        end; outside.
  - exists []. split; [apply grown_refl|]. split; [intros ? ? ? []|now left].
  - exists []. split; [apply grown_refl|]. split; [intros ? ? ? []|now left].
  - exists wnew. split; [assumption|]. split.
    + intros c e x Hin. eapply (proj2 (HW x)); eauto.
    + left. intros x. apply HW.
  - exists wnew. split; [assumption|]. split.
    + intros c e x Hin. eapply (proj2 (HW x)); eauto.
    + left. intros x. apply HW.
  - eexists. split; [eapply grown_trans; [exact Hgw | exact Hgq]|]. split.
    + intros c e x Hin. apply in_app_or in Hin.
      destruct Hin as [Hin|[[= <- <-]|[]]]; [|apply HW].
      eapply (proj2 (HW x)); eauto.
    + left. intros x. rewrite Hcq. apply HW.
  - destruct IHResolve as (new & Hg & Hn & Hend).
    assert (E2 : forall x, cache_A x (cache st2) = cache_A x (cache st))
      by (intros x; rewrite Hcq; apply HW).
    eexists. split.
    { eapply grown_trans; [exact Hgw|]. eapply grown_cons; [exact Hgq | exact Hg]. }
    split.
    + intros c e x Hin. apply in_app_or in Hin.
      destruct Hin as [Hin|[[= <- <-]|Hin]].
      * eapply (proj2 (HW x)); eauto.
      * apply HW.
      * rewrite (Hn c e x Hin). apply E2.
    + destruct Hend as [Hend|(final & sv & r' & before & c & -> & Hc & -> & Hx)].
      * left. intros x. rewrite Hend. apply E2.
      * right. exists final, sv, r'.
        exists (wnew ++ (cache st1, EvQuery domain server Q_A (Some r)) :: before), c.
        split; [now rewrite <- app_assoc|]. split; [assumption|].
        split; [reflexivity|]. intros x. rewrite Hx, E2. reflexivity.
  - eexists. split; [eapply grown_trans; [exact Hgw | exact Hgq]|]. split.
    + intros c e x Hin. apply in_app_or in Hin.
      destruct Hin as [Hin|[[= <- <-]|[]]]; [|apply HW].
      eapply (proj2 (HW x)); eauto.
    + left. intros x. rewrite Hcq. apply HW.
  - eexists. split; [eapply grown_trans; [exact Hgw | exact Hgq]|]. split.
    + intros c e x Hin. apply in_app_or in Hin.
      destruct Hin as [Hin|[[= <- <-]|[]]]; [|apply HW].
      eapply (proj2 (HW x)); eauto.
    + right. exists domain, server, r, wnew, (cache st1).
      split; [reflexivity|]. split; [assumption|]. split; [reflexivity|].
      intros x. simpl. rewrite cache_A_store_A, Hcq.
      destruct (String.eqb domain x); [reflexivity | apply HW].
Qed.

End ResolutionInvariants.

(** ** The claims about whole runs *)

Lemma decode_reply_none (qid : Z) (r : reply) :
  decode_reply qid r = None <-> failure_cause qid r.
Proof.
  destruct r as [| |h sections]; simpl; try tauto.
  destruct (Z.eqb_spec qid (header_id h)) as [E|E];
    destruct (Z.eqb_spec (header_rcode h) RCODE_NOERROR) as [F|F]; simpl.
  - split; [auto | intros [H|[H|H]]; congruence].
  - split; auto.
  - split; [left; congruence | auto].
  - split; [left; congruence | auto].
Qed.

Section Runs.

Context {World : Type} {net : Network World}.

(** C6. [get_dns_record] yields [None] exactly in the cases of
    [failure_cause] (a transport exception, a header that does not
    parse, another transaction identifier, a response code other than
    NOERROR, sections that do not parse), and [None] is all it yields
    then.  In a run of [resolve], an exchange that yielded [None], be it
    an NS or an A query, is the last event of the log and the run
    returned [None]: nothing is sent or looked up after it. *)
Theorem single_failure_signal :
  (forall d s rt (st : State World),
      fst (get_dns_record d s rt st) = None <->
      failure_cause (fst (fst (exchange (world st) d s rt)))
                    (snd (fst (exchange (world st) d s rt)))) /\
  (forall fuel domain (st : State World) out st',
      resolve fuel domain st = (out, st') ->
      exists new,
        grown st st' new /\
        forall before c d s rt after,
          new = before ++ (c, EvQuery d s rt None) :: after ->
          after = [] /\ out = Return None).
Proof.
  split.
  - intros d s rt st. unfold get_dns_record.
    destruct (exchange (world st) d s rt) as [[qid r] w]. simpl.
    apply decode_reply_none.
  - intros fuel domain st out st' H. apply resolve_Resolve in H.
    destruct (Resolve_log _ _ _ _ _ H) as (new & Hg & Hs & _).
    exists new. split; [assumption|].
    intros before c d s rt after E.
    eapply stops_at_failure_last; eauto.
Qed.

(** Queries and absent buckets: in a run, at a walk step, and at the
    address query. *)
Lemma queries_absent_parts :
  (forall fuel domain (st : State World) out st',
      resolve fuel domain st = (out, st') ->
      exists new,
        grown st st' new /\
        Forall bucket_absent new /\
        forall d names,
          cache_NS d (cache st) = Some names ->
          forall c s r, ~ In (c, EvQuery d s Q_NS r) new) /\
  (forall fuel domain (st : State World) ips,
      cache_A domain (cache st) = Some ips ->
      resolve (S fuel) domain st = (Return (Some ips), st)) /\
  (forall curr rest server (st : State World),
      cache_NS curr (cache st) = None ->
      exists result res st' later,
        delegation_walk (curr :: rest) server st = (res, st') /\
        grown st st' ((cache st, EvQuery curr server Q_NS result) :: later)) /\
  (forall fuel domain (st : State World) server st1,
      cache_A domain (cache st) = None ->
      delegation_walk (suffixes domain) ROOT_SERVER st = (WalkServer server, st1) ->
      exists result out st' later,
        resolve (S fuel) domain st = (out, st') /\
        grown st1 st' ((cache st1, EvQuery domain server Q_A result) :: later)).
Proof.
  repeat split.
  - intros fuel domain st out st' H. apply resolve_Resolve in H.
    destruct (Resolve_log _ _ _ _ _ H) as (new & Hg & _ & Ha).
    exists new. repeat split; auto.
    intros d names Hd c s r Hin.
    destruct (Resolve_keeps_NS _ _ _ _ _ _ _ H Hd) as (new' & Hg' & Hk).
    rewrite (grown_inj _ _ _ _ Hg' Hg) in Hk.
    rewrite Forall_forall in Ha. specialize (Ha _ Hin).
    unfold bucket_absent in Ha. simpl in Ha.
    rewrite (Hk _ _ Hin) in Ha. discriminate.
  - intros fuel domain st ips H. simpl. now rewrite H.
  - intros curr rest server st Hns.
    destruct (delegation_walk (curr :: rest) server st) as [res st'] eqn:Hw.
    pose proof (delegation_walk_Walk _ _ _ _ _ Hw) as W.
    inversion W; subst; try congruence; outside.
    + do 4 eexists. split; [reflexivity|]. exact Hgq.
    + do 4 eexists. split; [reflexivity|]. exact Hgq.
    + match goal with W' : Walk rest _ _ _ _ |- _ =>
        destruct (Walk_log _ _ _ _ _ W') as (new & Hg & _) end.
      apply grown_store_delegation in Hg.
      do 4 eexists. split; [reflexivity|]. eapply grown_cons; eassumption.
    + match goal with W' : Walk rest _ _ _ _ |- _ =>
        destruct (Walk_log _ _ _ _ _ W') as (new & Hg & _) end.
      do 4 eexists. split; [reflexivity|].
      eapply grown_cons; [exact Hgq|]. eapply grown_trans; eassumption.
    + do 4 eexists. split; [reflexivity|]. eapply grown_cons; eassumption.
  - intros fuel domain st server st1 HA Hw.
    destruct (resolve (S fuel) domain st) as [out st'] eqn:Hr.
    simpl in Hr. rewrite HA, Hw in Hr.
    destruct (get_dns_record domain server Q_A st1) as [[r|] st2] eqn:Hq;
      outside.
    + destruct (find_cname (answers r)) as [cname|].
      * apply resolve_Resolve in Hr.
        destruct (Resolve_log _ _ _ _ _ Hr) as (new & Hg & _).
        do 4 eexists. split; [reflexivity|]. eapply grown_cons; eassumption.
      * destruct (ip_addresses_of (answers r)); injection Hr as <- <-;
          do 4 eexists; (split; [reflexivity|]); exact Hgq.
    + injection Hr as <- <-. do 4 eexists. split; [reflexivity|]. exact Hgq.
Qed.

End Runs.

Section Order.

Context {World : Type} {net : Network World}.



(** C3, as the code has it.  When the A query for [domain] is answered
    with a CNAME among its answers, the run is from there on the run of
    [resolve] for the target of the first CNAME, cache check first, and
    so is its result; the address buckets are then as they were at the
    start.  No address bucket changes while a run lasts; a run that
    changes one ends on an A query answered without CNAME and returns the
    addresses of that answer, and the bucket is that of the name of that
    last query. *)
Theorem alias_restarts_resolution (fuel : nat) (domain : string)
    (st : State World) (server : string) (st1 : State World) (r : response)
    (st2 : State World) (cname : string) :
  cache_A domain (cache st) = None ->
  delegation_walk (suffixes domain) ROOT_SERVER st = (WalkServer server, st1) ->
  get_dns_record domain server Q_A st1 = (Some r, st2) ->
  find_cname (answers r) = Some cname ->
  resolve (S fuel) domain st = resolve fuel cname st2 /\
  (forall x, cache_A x (cache st2) = cache_A x (cache st)) /\
  forall out st',
    resolve (S fuel) domain st = (out, st') ->
    exists new,
      grown st st' new /\
      (forall c e x, In (c, e) new -> cache_A x c = cache_A x (cache st)) /\
      ((forall x, cache_A x (cache st') = cache_A x (cache st)) \/
       exists final server' r' before c,
         new = before ++ [(c, EvQuery final server' Q_A (Some r'))] /\
         find_cname (answers r') = None /\
         out = Return (Some (ip_addresses_of (answers r'))) /\
         forall x, cache_A x (cache st') =
                   if String.eqb final x
                   then Some (ip_addresses_of (answers r'))
                   else cache_A x (cache st)).
Proof.
  intros HA Hw Hq Hc. split; [|split].
  - simpl. now rewrite HA, Hw, Hq, Hc.
  - intros x. apply delegation_walk_Walk in Hw.
    destruct (Walk_keeps_A _ _ _ _ _ x Hw) as [K _].
    apply get_dns_record_grown in Hq. destruct Hq as [-> _]. exact K.
  - intros out st' Hr. apply resolve_Resolve in Hr.
    apply (Resolve_writes_A _ _ _ _ _ Hr).
Qed.

End Order.

(** ** Worked runs for the claims *)

(** The NS queries of that walk, with the servers they went to. *)
Example walk_order_abc :
  ns_queries (events (snd (delegation_walk (suffixes "a.b.c") ROOT_SERVER st_abc)))
  = [("c", ROOT_SERVER); ("b.c", "1.1.1.1"); ("a.b.c", "2.2.2.2")].
Proof. reflexivity. Qed.

(** C3 where www.example.com is an alias of example.com, whose
    addresses are cached. *)
Lemma alias_restarts_witness :
  resolve 2 "www.example.com" st_alias =
  resolve 1 "example.com"
    (snd (get_dns_record "www.example.com" ROOT_SERVER Q_A
            (snd (delegation_walk (suffixes "www.example.com") ROOT_SERVER
                    st_alias)))).
Proof.
  refine (proj1 (alias_restarts_resolution 1 "www.example.com" st_alias
                   ROOT_SERVER _ _ _ "example.com" _ _ _ _)); reflexivity.
Defined.

(** That run returns the addresses of example.com and stores nothing
    under www.example.com. *)
Example alias_chase :
  fst (resolve 2 "www.example.com" st_alias) = Return (Some ["5.6.7.8"]) /\
  cache_A "www.example.com" (cache (snd (resolve 2 "www.example.com" st_alias)))
  = None.
Proof. split; reflexivity. Qed.

(** C3 as stated fails on an alias chain that comes back: the first A
    query for www.example.com is answered with a CNAME, and at the end of
    the run the A bucket of www.example.com, absent at the start, holds
    the addresses. *)
Lemma alias_bucket_under_original_name :
  find_cname
    (answers (mkResponse [mkRR "www.example.com." QTYPE_CNAME "example.com."] [] []))
    = Some "example.com" /\
  map (fun e => match e with
                | EvQuery d _ Q_A (Some r) => Some (d, find_cname (answers r))
                | _ => None
                end)
      (events (snd (resolve 3 "www.example.com" st_alias_loop)))
  = [None; Some ("www.example.com", Some "example.com");
     None; Some ("example.com", Some "www.example.com");
     None; Some ("www.example.com", None)] /\
  fst (resolve 3 "www.example.com" st_alias_loop) = Return (Some ["5.6.7.8"]) /\
  cache_A "www.example.com" (cache st_alias_loop) = None /\
  cache_A "www.example.com"
    (cache (snd (resolve 3 "www.example.com" st_alias_loop)))
  = Some ["5.6.7.8"].
Proof. repeat split. Qed.

(** Without glue the system resolver is asked for ns1.c, then for
    ns2.c, which answers; ns3.c is not tried. *)
Example fallback_in_list_order :
  events (snd (resolve 1 "c" st_fallback)) =
  [EvQuery "c" ROOT_SERVER Q_NS
     (Some (mkResponse [] [mkRR "c." QTYPE_NS "ns1.c."; mkRR "c." QTYPE_NS "ns2.c.";
                           mkRR "c." QTYPE_NS "ns3.c."] []));
   EvLookup "ns1.c" None; EvLookup "ns2.c" (Some "4.4.4.4");
   EvQuery "c" "4.4.4.4" Q_A (Some (mkResponse [mkRR "c." QTYPE_A "9.9.9.9"] [] []))].
Proof. reflexivity. Qed.

(** C5 as stated fails for a response without NS record: the NS query
    for c is answered, its (empty) nameserver list is not stored, and the
    cache holds no NS or NS_IP bucket for c afterwards. *)
Lemma empty_ns_list_is_not_cached :
  events (snd (delegation_walk ["c"] ROOT_SERVER st_no_ns))
    = [EvQuery "c" ROOT_SERVER Q_NS (Some (mkResponse [] [] []))] /\
  ns_answers_of (mkResponse [] [] []) = [] /\
  cache_NS "c" (cache (snd (delegation_walk ["c"] ROOT_SERVER st_no_ns))) = None /\
  cache (snd (delegation_walk ["c"] ROOT_SERVER st_no_ns)) = [] /\
  list_cache (cache (snd (resolve 1 "c" st_no_ns))) = [("c", K_A)].
Proof. repeat split. Qed.

(** C6 where the reply to the second NS query carries another
    transaction identifier: the run returns [None]. *)
Lemma single_failure_witness :
  fst (resolve 3 "b.c" st_fail) = Return None.
Proof.
  destruct (proj2 single_failure_signal 3 "b.c" st_fail _ _
              (surjective_pairing (resolve 3 "b.c" st_fail)))
    as (new & Hg & Hlast).
  unfold grown in Hg. simpl log at 2 in Hg. simpl app in Hg.
  refine (proj2 (Hlast [(_, _)] _ _ _ _ [] _)).
  rewrite <- Hg. reflexivity.
Defined.

(** C7 as stated fails where the walk stops early: b is answered
    without NS record, so no NS query is sent for a.b although a.b has no
    NS bucket before, during or after the run, which succeeds. *)
Lemma absent_bucket_without_query :
  fst (resolve 1 "a.b" st_stop) = Return (Some ["9.9.9.9"]) /\
  suffixes "a.b" = ["b"; "a.b"] /\
  map (fun e => match e with
                | EvQuery d s rt _ => Some (d, s, rt)
                | EvLookup _ _ => None
                end) (events (snd (resolve 1 "a.b" st_stop)))
  = [Some ("b", ROOT_SERVER, Q_NS); Some ("a.b", ROOT_SERVER, Q_A)] /\
  cache_NS "a.b" (cache st_stop) = None /\
  cache_NS "a.b" (cache (snd (resolve 1 "a.b" st_stop))) = None.
Proof. repeat split. Qed.

(** C8 as stated fails: with the addresses of example.com cached,
    example.com is answered from the cache, while Example.COM. finds no
    entry, sends an NS query for its first suffix (the empty label after
    the last dot), and, when answered, stores under a key of its own. *)
Lemma spelling_matters :
  fst (resolve 1 "example.com" st_cached) = Return (Some ["1.2.3.4"]) /\
  events (snd (resolve 1 "example.com" st_cached)) = [] /\
  fst (resolve 1 "Example.COM." st_cached) = Return None /\
  events (snd (resolve 1 "Example.COM." st_cached))
    = [EvQuery "" ROOT_SERVER Q_NS None] /\
  list_cache
    (cache (snd (resolve 1 "Example.COM."
                   (start (cache st_cached)
                      [ok [] [] []; ok [mkRR "Example.COM." QTYPE_A "6.6.6.6"] [] []]))))
  = [("example.com", K_A); ("Example.COM.", K_A)].
Proof. repeat split. Qed.

(** * Further properties of the code *)

(** ** Stores keep the cache a dictionary of dictionaries *)

Lemma keys_set_present {V} (k : string) (v : V) (d : Dict.t V) :
  In k (Dict.keys d) -> Dict.keys (Dict.set k v d) = Dict.keys d.
Proof.
  induction d as [|[k' v'] r IH]; simpl; [tauto|].
  intros H. destruct (String.eqb_spec k k') as [->|Hk]; simpl; [reflexivity|].
  f_equal. apply IH. destruct H; congruence.
Qed.

Lemma keys_set_absent {V} (k : string) (v : V) (d : Dict.t V) :
  ~ In k (Dict.keys d) -> Dict.keys (Dict.set k v d) = Dict.keys d ++ [k].
Proof.
  induction d as [|[k' v'] r IH]; simpl; [reflexivity|].
  intros H. destruct (String.eqb_spec k k') as [->|Hk]; simpl; [tauto|].
  f_equal. apply IH. tauto.
Qed.

Lemma in_set {V} (k : string) (v : V) (d : Dict.t V) (p : string * V) :
  In p (Dict.set k v d) -> p = (k, v) \/ In p d.
Proof.
  induction d as [|[k' v'] r IH]; simpl.
  - intros [<-|[]]. now left.
  - destruct (String.eqb_spec k k') as [->|Hk]; simpl.
    + intros [<-|H]; auto.
    + intros [<-|H]; auto. destruct (IH H); auto.
Qed.

Lemma get_in {V} (k : string) (v : V) (d : Dict.t V) :
  Dict.get k d = Some v -> In (k, v) d.
Proof.
  induction d as [|[k' v'] r IH]; simpl; [discriminate|].
  destruct (String.eqb_spec k k') as [->|Hk].
  - intros [= ->]. now left.
  - intros H. right. auto.
Qed.

Lemma in_get {V} (k : string) (v : V) (d : Dict.t V) :
  NoDup (Dict.keys d) -> In (k, v) d -> Dict.get k d = Some v.
Proof.
  induction d as [|[k' v'] r IH]; simpl; [tauto|].
  intros Hnd [[= -> ->]|Hin].
  - now rewrite String.eqb_refl.
  - inversion Hnd as [|? ? Hnot Hnd']; subst.
    destruct (String.eqb_spec k k') as [->|Hk]; [|auto].
    exfalso. apply Hnot. apply in_map_iff. now exists (k', v).
Qed.

Lemma kinds_entry_set (b : bucket) (e : entry) :
  map kind_of (entry_set b e) = map kind_of e \/
  (map kind_of (entry_set b e) = map kind_of e ++ [kind_of b] /\
   ~ In (kind_of b) (map kind_of e)).
Proof.
  induction e as [|b' r IH]; simpl; [right; auto|].
  destruct (kind_eqb_spec (kind_of b) (kind_of b')) as [E|E]; simpl.
  - left. now rewrite E.
  - destruct IH as [IH|[IH Hn]]; [left | right]; rewrite IH; simpl; auto.
    split; [reflexivity|]. intros [H|H]; [congruence | contradiction].
Qed.

Lemma entry_set_NoDup (b : bucket) (e : entry) :
  NoDup (map kind_of e) -> NoDup (map kind_of (entry_set b e)).
Proof.
  intros H. destruct (kinds_entry_set b e) as [E|[E Hn]]; rewrite E; auto.
  apply NoDup_app; [assumption | repeat constructor; intros [] |].
  intros k Hk [<-|[]]. contradiction.
Qed.

Lemma cache_entry_NoDup (d : string) (c : Cache) :
  cache_wf c -> NoDup (map kind_of (cache_entry d c)).
Proof.
  intros [_ He]. unfold cache_entry.
  destruct (Dict.get d c) as [e|] eqn:G; [|constructor].
  apply (He d). now apply get_in.
Qed.

Lemma cache_store_wf (d : string) (b : bucket) (c : Cache) :
  cache_wf c -> cache_wf (cache_store d b c).
Proof.
  intros Hwf. pose proof (cache_entry_NoDup d c Hwf) as Hd.
  destruct Hwf as [Hk He]. unfold cache_store. split.
  - destruct (in_dec string_dec d (Dict.keys c)) as [Hin|Hout].
    + now rewrite keys_set_present.
    + rewrite keys_set_absent by assumption.
      apply NoDup_app; [assumption | repeat constructor; intros [] |].
      intros k Hk' [<-|[]]. contradiction.
  - intros d' e' Hin. apply in_set in Hin. destruct Hin as [[= -> ->]|Hin].
    + now apply entry_set_NoDup.
    + eauto.
Qed.

(** ** Address lists are never empty *)

Lemma ns_ips_of_nonempty (names : list string) (r : response) (ns : string) :
  Dict.get ns (ns_ips_of names r) <> Some [].
Proof.
  intros H. destruct (ns_ips_of_singleton _ _ _ _ H). discriminate.
Qed.

Lemma store_delegation_addresses_ok (curr : string) (r : response) (c : Cache) :
  addresses_ok c ->
  addresses_ok
    (cache_store curr (NS_IP (ns_ips_of (ns_answers_of r) r))
       (cache_store curr (NS (ns_answers_of r)) c)).
Proof.
  intros [HA HG]. split.
  - intros d. rewrite !cache_A_store by discriminate. apply HA.
  - intros d ns. rewrite cache_NS_IP_store_NS_IP.
    destruct (String.eqb curr d); [apply ns_ips_of_nonempty|].
    rewrite cache_NS_IP_store by discriminate. apply HG.
Qed.

Lemma store_addresses_ok (d : string) (ips : list string) (c : Cache) :
  ips <> [] -> addresses_ok c -> addresses_ok (cache_store d (A ips) c).
Proof.
  intros Hne [HA HG]. split.
  - intros d'. rewrite cache_A_store_A.
    destruct (String.eqb d d'); [congruence | apply HA].
  - intros d' ns. rewrite cache_NS_IP_store by discriminate. apply HG.
Qed.

Section CacheOk.

Context {World : Type} {net : Network World}.

Lemma Walk_cache_ok todo server (st : State World) res st' :
  Walk todo server st res st' ->
  cache_ok (cache st) ->
  cache_ok (cache st') /\ res <> WalkIndexError.
Proof.
  assert (S : forall curr r c, cache_ok c ->
                cache_ok (cache_store curr (NS_IP (ns_ips_of (ns_answers_of r) r))
                            (cache_store curr (NS (ns_answers_of r)) c))).
  { intros curr r c [Hw Ha]. split.
    - now do 2 apply cache_store_wf.
    - now apply store_delegation_addresses_ok. }
  induction 1; intros Hok; outside.
  - split; [assumption | discriminate].
  - auto.
  - exfalso.
    match goal with H : first_with_ip _ _ = Some [] |- _ =>
      destruct (first_with_ip_some _ _ _ H) as (sk & ns & af & _ & _ & Hg) end.
    destruct Hok as [_ [_ HG]]. exact (HG _ _ Hg).
  - auto.
  - split; [congruence | discriminate].
  - split; [congruence | discriminate].
  - apply IHWalk. simpl. apply S. congruence.
  - apply IHWalk. rewrite Hcl. apply S. congruence.
  - split; [|discriminate]. rewrite Hcl. apply S. congruence.
Qed.

Lemma Resolve_cache_ok fuel domain (st : State World) out st' :
  Resolve fuel domain st out st' ->
  cache_ok (cache st) ->
  cache_ok (cache st') /\ out <> IndexError /\ out <> Return (Some []).
Proof.
  induction 1; intros Hok;
    try match goal with
        | W : Walk _ _ _ _ _ |- _ =>
            destruct (Walk_cache_ok _ _ _ _ _ W Hok) as [Hok1 Hres]
        end; outside.
  - split; [assumption | split; discriminate].
  - split; [assumption | split; [discriminate|]].
    intros [= ->]. destruct Hok as [_ [HA _]]. exact (HA _ H).
  - split; [assumption | split; discriminate].
  - contradiction.
  - split; [congruence | split; discriminate].
  - apply IHResolve. congruence.
  - split; [congruence | split; discriminate].
  - split; [|split; [discriminate | congruence]].
    simpl. rewrite Hcq. destruct Hok1 as [Hw Ha]. split.
    + now apply cache_store_wf.
    + now apply store_addresses_ok.
Qed.

End CacheOk.

(** ** The listing and the removal, seen through lookups *)

Lemma entry_get_none (k : kind) (e : entry) :
  ~ In k (map kind_of e) -> entry_get k e = None.
Proof.
  induction e as [|b r IH]; simpl; [reflexivity|].
  intros H. destruct (kind_eqb_spec k (kind_of b)) as [->|E]; [tauto|].
  apply IH. tauto.
Qed.

Lemma entry_mem_in (k : kind) (e : entry) :
  entry_mem k e = true <-> In k (map kind_of e).
Proof.
  unfold entry_mem. induction e as [|b r IH]; simpl; [split; [discriminate|tauto]|].
  destruct (kind_eqb_spec k (kind_of b)) as [->|E].
  - split; auto.
  - rewrite IH. split; [auto | intros [H|H]; [congruence | assumption]].
Qed.

Lemma entry_get_del (k k' : kind) (e : entry) :
  NoDup (map kind_of e) ->
  entry_get k' (entry_del k e) = if kind_eqb k k' then None else entry_get k' e.
Proof.
  induction e as [|b r IH]; simpl; intros Hnd.
  - now destruct (kind_eqb k k').
  - inversion Hnd as [|? ? Hnot Hnd']; subst.
    destruct (kind_eqb_spec k (kind_of b)) as [->|E].
    + destruct (kind_eqb_spec (kind_of b) k') as [<-|E'].
      * now apply entry_get_none.
      * destruct (kind_eqb_spec k' (kind_of b)); congruence.
    + simpl. destruct (kind_eqb_spec k' (kind_of b)) as [->|E'].
      * destruct (kind_eqb_spec k (kind_of b)); congruence.
      * auto.
Qed.

Lemma kinds_entry_del (k : kind) (e : entry) (x : kind) :
  In x (map kind_of (entry_del k e)) -> In x (map kind_of e).
Proof.
  induction e as [|b r IH]; simpl; [tauto|].
  destruct (kind_eqb k (kind_of b)); simpl; [auto|]. intros [H|H]; auto.
Qed.

Lemma entry_del_NoDup (k : kind) (e : entry) :
  NoDup (map kind_of e) -> NoDup (map kind_of (entry_del k e)).
Proof.
  induction e as [|b r IH]; simpl; intros Hnd; [constructor|].
  inversion Hnd as [|? ? Hnot Hnd']; subst.
  destruct (kind_eqb k (kind_of b)); simpl; [assumption|].
  constructor; [|auto]. intros H. apply Hnot. eapply kinds_entry_del; eauto.
Qed.

Lemma in_del {V} (k : string) (d : Dict.t V) (p : string * V) :
  In p (Dict.del k d) -> In p d.
Proof.
  induction d as [|[k' v'] r IH]; simpl; [tauto|].
  destruct (String.eqb k k'); simpl; [auto|]. intros [H|H]; auto.
Qed.

Lemma keys_del_NoDup {V} (k : string) (d : Dict.t V) :
  NoDup (Dict.keys d) ->
  NoDup (Dict.keys (Dict.del k d)) /\ Dict.get k (Dict.del k d) = None.
Proof.
  induction d as [|[k' v'] r IH]; simpl; intros Hnd; [split; [constructor|reflexivity]|].
  inversion Hnd as [|? ? Hnot Hnd']; subst.
  destruct (String.eqb_spec k k') as [->|Hk]; simpl.
  - split; [assumption|]. now apply DictFacts.get_none_not_in.
  - destruct (IH Hnd') as [IH1 IH2].
    destruct (String.eqb_spec k k'); [contradiction|]. split; [|assumption].
    constructor; [|assumption]. intros H. apply Hnot.
    unfold Dict.keys in *. apply in_map_iff in H. destruct H as ([k0 v0] & <- & H).
    apply in_map_iff. exists (k0, v0). split; [reflexivity|].
    eapply in_del; eauto.
Qed.

Lemma keys_set_NoDup {V} (k : string) (v : V) (d : Dict.t V) :
  NoDup (Dict.keys d) -> NoDup (Dict.keys (Dict.set k v d)).
Proof.
  intros H. destruct (in_dec string_dec k (Dict.keys d)) as [Hin|Hout].
  - now rewrite keys_set_present.
  - rewrite keys_set_absent by assumption.
    apply NoDup_app; [assumption | repeat constructor; intros [] |].
    intros x Hx [<-|[]]. contradiction.
Qed.

Lemma cache_entry_without_same (d : string) (k : kind) (c : Cache) :
  NoDup (Dict.keys c) ->
  cache_entry d (without d k c) = entry_del k (cache_entry d c).
Proof.
  intros Hnd. unfold without.
  destruct (entry_del k (cache_entry d c)) as [|b r] eqn:E.
  - assert (G : @Dict.get entry d (@Dict.del entry d (@Dict.set entry d [] c))
                = None)
      by (apply keys_del_NoDup; now apply keys_set_NoDup).
    unfold cache_entry at 1. now rewrite G.
  - unfold cache_entry at 1. now rewrite DictFacts.get_set_same.
Qed.

Lemma cache_entry_without_other (d d' : string) (k : kind) (c : Cache) :
  d <> d' -> cache_entry d' (without d k c) = cache_entry d' c.
Proof.
  intros H. unfold cache_entry. now rewrite get_without_other.
Qed.

Lemma without_wf (d : string) (k : kind) (c : Cache) :
  cache_wf c -> cache_wf (without d k c).
Proof.
  intros Hwf. pose proof (cache_entry_NoDup d c Hwf) as Hd.
  destruct Hwf as [Hk He].
  assert (W1 : cache_wf (Dict.set d (entry_del k (cache_entry d c)) c)).
  { split; [now apply keys_set_NoDup|].
    intros d' e' Hin. apply in_set in Hin. destruct Hin as [[= -> ->]|Hin].
    - now apply entry_del_NoDup.
    - eauto. }
  unfold without. destruct (entry_del k (cache_entry d c)); [|assumption].
  destruct W1 as [Wk We]. split.
  - now apply keys_del_NoDup.
  - intros d' e' Hin. apply in_del in Hin. eauto.
Qed.

(** On a dictionary, [remove_cache_N] either refuses the index or takes
    out the bucket found at it. *)
Lemma remove_cache_N_cases (N : Z) (c : Cache) :
  cache_wf c ->
  (remove_cache_N N c = (c, Invalid N) /\
   ~ (1 <= N <= Z.of_nat (length (list_cache c)))%Z) \/
  (exists d b,
      (1 <= N <= Z.of_nat (length (list_cache c)))%Z /\
      nth_error (cache_pairs c) (Z.to_nat (N - 1)) = Some (d, b) /\
      remove_cache_N N c = (without d (kind_of b) c, Removed N d (kind_of b))).
Proof.
  intros Hwf. unfold remove_cache_N.
  destruct (Z.ltb_spec N 1); [left; split; [reflexivity | lia]|].
  destruct (Z.gtb_spec N (Z.of_nat (length (list_cache c))));
    [left; split; [reflexivity | lia]|].
  right. simpl.
  assert (Hlen : (Z.to_nat (N - 1) < length (cache_pairs c))%nat).
  { rewrite list_cache_pairs, length_map in *. lia. }
  destruct (nth_error (cache_pairs c) (Z.to_nat (N - 1))) as [[d b]|] eqn:Hn;
    [|apply nth_error_None in Hn; lia].
  exists d, b. split; [lia|]. split; [reflexivity|].
  destruct (without_nth c _ d b Hwf Hn) as [Hm _].
  rewrite list_cache_pairs, nth_error_map, Hn. simpl. now rewrite Hm.
Qed.

(** X12. On a dictionary, after [remove_cache_N N] with [N] in range the
    bucket numbered [N] is no longer found under its domain, and a lookup
    of any other bucket, under that domain or another, gives what it
    gave before. *)
Theorem remove_then_lookup (N : Z) (c : Cache) :
  cache_wf c ->
  (1 <= N <= Z.of_nat (length (list_cache c)))%Z ->
  exists d b,
    nth_error (cache_pairs c) (Z.to_nat (N - 1)) = Some (d, b) /\
    entry_get (kind_of b) (cache_entry d (fst (remove_cache_N N c))) = None /\
    forall d' k',
      (d', k') <> (d, kind_of b) ->
      entry_get k' (cache_entry d' (fst (remove_cache_N N c))) =
      entry_get k' (cache_entry d' c).
Proof.
  intros Hwf Hrange.
  destruct (remove_cache_N_cases N c Hwf) as [[_ Hno]|(d & b & _ & Hn & E)];
    [contradiction|].
  exists d, b. rewrite E. simpl. split; [assumption|].
  pose proof (cache_entry_NoDup d c Hwf) as Hd.
  split.
  - rewrite cache_entry_without_same by apply Hwf.
    rewrite entry_get_del by assumption.
    now destruct (kind_eqb_spec (kind_of b) (kind_of b)).
  - intros d' k' Hne. destruct (String.eqb_spec d d') as [<-|Hdd].
    + rewrite cache_entry_without_same by apply Hwf.
      rewrite entry_get_del by assumption.
      destruct (kind_eqb_spec (kind_of b) k'); [congruence | reflexivity].
    + now rewrite cache_entry_without_other.
Qed.

Lemma without_addresses_ok (d : string) (k : kind) (c : Cache) :
  cache_wf c -> addresses_ok c -> addresses_ok (without d k c).
Proof.
  intros Hwf [HA HG].
  assert (G : forall k' d',
             entry_get k' (cache_entry d' (without d k c)) = None \/
             entry_get k' (cache_entry d' (without d k c)) =
             entry_get k' (cache_entry d' c)).
  { intros k' d'. destruct (String.eqb_spec d d') as [<-|Hdd].
    - rewrite cache_entry_without_same by apply Hwf.
      rewrite entry_get_del by now apply cache_entry_NoDup.
      destruct (kind_eqb k k'); auto.
    - right. now rewrite cache_entry_without_other. }
  split.
  - intros d'. unfold cache_A. destruct (G K_A d') as [E|E]; rewrite E.
    + discriminate.
    + apply HA.
  - intros d' ns. unfold cache_NS_IP. destruct (G K_NS_IP d') as [E|E]; rewrite E.
    + discriminate.
    + apply HG.
Qed.

(** X13. [remove_cache_N] keeps the cache a dictionary of dictionaries
    with non-empty address lists, whatever the index; with the index in
    range the listing afterwards is the listing before without its N-th
    line, one line shorter. *)
Theorem remove_keeps_cache_ok (N : Z) (c : Cache) :
  cache_ok c ->
  cache_ok (fst (remove_cache_N N c)) /\
  ((1 <= N <= Z.of_nat (length (list_cache c)))%Z ->
   list_cache (fst (remove_cache_N N c)) =
     remove_at (Z.to_nat (N - 1)) (list_cache c) /\
   S (length (list_cache (fst (remove_cache_N N c)))) = length (list_cache c)).
Proof.
  intros [Hwf Ha].
  destruct (remove_cache_N_cases N c Hwf) as [[E Hno]|(d & b & Hr & Hn & E)];
    rewrite E; simpl.
  - split; [split; assumption | contradiction].
  - split; [split; [now apply without_wf | now apply without_addresses_ok]|].
    intros _. destruct (without_nth c _ d b Hwf Hn) as [_ Hp].
    assert (L : list_cache (without d (kind_of b) c) =
                remove_at (Z.to_nat (N - 1)) (list_cache c)).
    { rewrite !list_cache_pairs, Hp. apply remove_at_map. }
    split; [exact L|]. rewrite L. unfold remove_at.
    rewrite length_app, length_firstn, length_skipn. lia.
Qed.

Lemma NoDup_map_pair {X Y} (x : X) (l : list Y) :
  NoDup l -> NoDup (map (pair x) l).
Proof.
  induction 1 as [|y l Hn Hnd IH]; simpl; constructor; [|assumption].
  intros H. apply in_map_iff in H. destruct H as (y' & [= ->] & H). contradiction.
Qed.

(** X14. On a dictionary, [list_cache] lists a (domain, kind) pair
    exactly when a lookup finds a bucket of that kind under the domain,
    and lists no pair twice. *)
Theorem list_cache_lists_buckets (c : Cache) :
  cache_wf c ->
  NoDup (list_cache c) /\
  forall d k, In (d, k) (list_cache c) <-> entry_mem k (cache_entry d c) = true.
Proof.
  intros Hwf. split.
  - induction c as [|[d0 e0] r IH]; [constructor|].
    change (list_cache ((d0, e0) :: r))
      with (map (fun b => (d0, kind_of b)) e0 ++ list_cache r).
    apply NoDup_app.
    + rewrite <- (map_map kind_of (pair d0)).
      apply NoDup_map_pair. apply (proj2 Hwf d0). now left.
    + apply IH. eapply cache_wf_tail; eauto.
    + intros [d k] H1 H2. apply in_map_iff in H1. destruct H1 as (b & [= <- <-] & _).
      rewrite list_cache_pairs in H2. apply in_map_iff in H2.
      destruct H2 as ([d' b'] & [= <- _] & H2). apply cache_pairs_key in H2.
      destruct Hwf as [Hk _]. inversion Hk; contradiction.
  - intros d k. rewrite entry_mem_in. unfold list_cache. rewrite in_flat_map.
    split.
    + intros ([d' e] & Hin & Hk). simpl in Hk. apply in_map_iff in Hk.
      destruct Hk as (b & [= -> <-] & Hb).
      unfold cache_entry. rewrite (in_get _ _ _ (proj1 Hwf) Hin).
      now apply in_map.
    + intros Hk. unfold cache_entry in Hk.
      destruct (Dict.get d c) as [e|] eqn:G; [|destruct Hk].
      exists (d, e). split; [now apply get_in|]. simpl.
      apply in_map_iff in Hk. destruct Hk as (b & <- & Hb).
      apply in_map_iff. now exists b.
Qed.

(** ** What a run does to the cache *)

Lemma cache_store_grows (d : string) (b : bucket) (c : Cache) :
  (exists more, Dict.keys (cache_store d b c) = Dict.keys c ++ more) /\
  incl (list_cache c) (list_cache (cache_store d b c)).
Proof.
  split.
  - unfold cache_store.
    destruct (in_dec string_dec d (Dict.keys c)) as [Hin|Hout].
    + exists []. rewrite keys_set_present by assumption. now rewrite app_nil_r.
    + exists [d]. now apply keys_set_absent.
  - induction c as [|[d0 e0] r IH]; [intros x []|].
    unfold cache_store, cache_entry in *. simpl.
    destruct (String.eqb_spec d d0) as [->|Hd].
    + change (list_cache ((d0, e0) :: r))
        with (map (fun x => (d0, kind_of x)) e0 ++ list_cache r).
      change (list_cache ((d0, entry_set b e0) :: r))
        with (map (fun x => (d0, kind_of x)) (entry_set b e0) ++ list_cache r).
      intros x Hx. apply in_app_or in Hx. apply in_or_app.
      destruct Hx as [Hx|Hx]; [left | now right].
      rewrite <- (map_map kind_of (pair d0)) in *.
      apply in_map_iff in Hx. destruct Hx as (k & <- & Hk). apply in_map.
      destruct (kinds_entry_set b e0) as [E|[E _]]; rewrite E; auto.
      apply in_or_app. now left.
    + change (list_cache ((d0, e0) :: r))
        with (map (fun x => (d0, kind_of x)) e0 ++ list_cache r).
      intros x Hx. apply in_app_or in Hx.
      match goal with |- In x (list_cache (?p :: ?t)) =>
        change (list_cache (p :: t))
          with (map (fun x => (d0, kind_of x)) e0 ++ list_cache t) end.
      apply in_or_app. destruct Hx as [Hx|Hx]; [now left | right].
      now apply IH.
Qed.

Section RunsAndCache.

Context {World : Type} {net : Network World}.

(** X8. A run of [resolve] that starts on a cache that is a dictionary
    of dictionaries with non-empty address lists ends on such a cache,
    does not raise [IndexError], and does not return an empty list. *)
Theorem resolve_keeps_cache_ok (fuel : nat) (domain : string)
    (st : State World) :
  cache_ok (cache st) ->
  cache_ok (cache (snd (resolve fuel domain st))) /\
  fst (resolve fuel domain st) <> IndexError /\
  fst (resolve fuel domain st) <> Return (Some []).
Proof.
  intros Hok. destruct (resolve fuel domain st) as [out st'] eqn:Hr.
  apply resolve_Resolve in Hr. simpl.
  now apply (Resolve_cache_ok _ _ _ _ _ Hr).
Qed.

(** X9. A run of [resolve] only adds to the cache: the domains that were
    keys are still the first keys, in the same order, and every pair that
    [list_cache] listed is still listed. *)
Theorem resolve_only_adds (fuel : nat) (domain : string) (st : State World) :
  (exists more,
      Dict.keys (cache (snd (resolve fuel domain st))) =
      Dict.keys (cache st) ++ more) /\
  incl (list_cache (cache st)) (list_cache (cache (snd (resolve fuel domain st)))).
Proof.
  destruct (resolve fuel domain st) as [out st'] eqn:Hr.
  apply resolve_Resolve in Hr. simpl.
  set (Q := fun c => (exists more, Dict.keys c = Dict.keys (cache st) ++ more) /\
                     incl (list_cache (cache st)) (list_cache c)).
  assert (Step : forall d b c, Q c -> Q (cache_store d b c)).
  { intros d b c [[m Hm] Hi]. destruct (cache_store_grows d b c) as [[m' Hm'] Hi'].
    split.
    - exists (m ++ m'). now rewrite Hm', Hm, app_assoc.
    - eapply incl_tran; eauto. }
  apply (Resolve_preserves Q) with (3 := Hr).
  - intros curr names g c Hc _. now do 2 apply Step.
  - intros d ips c Hc. now apply Step.
  - split; [exists []; now rewrite app_nil_r | apply incl_refl].
Qed.

(** X4. A run that does not return addresses (it returned [None],
    raised, or is not over) leaves every A bucket as it was. *)
Theorem failed_run_leaves_A_buckets (fuel : nat) (domain : string)
    (st : State World) :
  (forall ips, fst (resolve fuel domain st) <> Return (Some ips)) ->
  forall x, cache_A x (cache (snd (resolve fuel domain st))) = cache_A x (cache st).
Proof.
  destruct (resolve fuel domain st) as [out st'] eqn:Hr. simpl.
  intros Hout. apply resolve_Resolve in Hr.
  destruct (Resolve_writes_A _ _ _ _ _ Hr) as (new & _ & _ & [H|H]); [exact H|].
  destruct H as (f & sv & r & bf & c & _ & _ & -> & _).
  exfalso. eapply Hout. reflexivity.
Qed.

Lemma Resolve_result_cached fuel domain (st : State World) out st' :
  Resolve fuel domain st out st' ->
  forall ips, out = Return (Some ips) ->
              exists final, cache_A final (cache st') = Some ips.
Proof.
  induction 1; intros ips0 E; try discriminate; outside.
  - injection E as <-. eauto.
  - eauto.
  - injection E as <-. exists domain. simpl.
    now rewrite cache_A_store_A, String.eqb_refl.
Qed.

(** X5. When a run returns addresses, they are the A bucket of some name
    in the cache it leaves, and resolving that name from there returns
    the same addresses in the first round without any exchange. *)
Theorem result_is_cached (fuel : nat) (domain : string) (st : State World)
    (ips : list string) :
  fst (resolve fuel domain st) = Return (Some ips) ->
  exists final,
    cache_A final (cache (snd (resolve fuel domain st))) = Some ips /\
    forall fuel',
      resolve (S fuel') final (snd (resolve fuel domain st)) =
      (Return (Some ips), snd (resolve fuel domain st)).
Proof.
  destruct (resolve fuel domain st) as [out st'] eqn:Hr. simpl.
  intros ->. apply resolve_Resolve in Hr.
  destruct (Resolve_result_cached _ _ _ _ _ Hr ips eq_refl) as [final Hf].
  exists final. split; [assumption|].
  intros fuel'. simpl. now rewrite Hf.
Qed.

End RunsAndCache.

(** ** Rounds and aliases *)

Lemma alias_answers_app (l1 l2 : list event) :
  alias_answers (l1 ++ l2) = alias_answers l1 ++ alias_answers l2.
Proof. apply flat_map_app. Qed.

Lemma alias_answers_lookups failed hit : alias_answers (lookups_of failed hit) = [].
Proof.
  unfold lookups_of. rewrite alias_answers_app.
  replace (alias_answers (map (fun ns => EvLookup (rstrip_dot ns) None) failed))
    with (@nil string) by (induction failed; simpl; auto).
  now destruct hit as [[? ?]|].
Qed.

Section Rounds.

Context {World : Type} {net : Network World}.

Lemma Walk_no_alias todo server (st : State World) res st' :
  Walk todo server st res st' ->
  exists new, grown st st' new /\ alias_answers (map snd new) = [].
Proof.
  induction 1; outside.
  - exists []. split; [apply grown_refl | reflexivity].
  - assumption.
  - exists []. split; [apply grown_refl | reflexivity].
  - assumption.
  - eexists. split; [exact Hgq | reflexivity].
  - eexists. split; [exact Hgq | reflexivity].
  - destruct IHWalk as (new & Hg & Ha). apply grown_store_delegation in Hg.
    eexists. split; [eapply grown_cons; [exact Hgq | exact Hg]|]. exact Ha.
  - destruct IHWalk as (new & Hg & Ha).
    eexists. split.
    { eapply grown_cons; [exact Hgq|]. eapply grown_trans; [exact Hgl | exact Hg]. }
    simpl. now rewrite map_app, map_snd_pair, alias_answers_app,
             alias_answers_lookups, Ha.
  - eexists. split; [eapply grown_cons; [exact Hgq | exact Hgl]|].
    simpl. now rewrite map_snd_pair, alias_answers_lookups.
Qed.

Lemma Resolve_alias_count fuel domain (st : State World) out st' :
  Resolve fuel domain st out st' ->
  exists new,
    grown st st' new /\
    (out = OutOfFuel -> length (alias_answers (map snd new)) = fuel) /\
    (out <> OutOfFuel -> (length (alias_answers (map snd new)) < fuel)%nat).
Proof.
  induction 1;
    try match goal with
        | W : Walk _ _ _ _ _ |- _ =>
            destruct (Walk_no_alias _ _ _ _ _ W) as (wnew & Hgw & Haw)
        end; outside.
  - exists []. split; [apply grown_refl|]. split; [reflexivity | congruence].
  - exists []. split; [apply grown_refl|]. simpl. split; [discriminate | lia].
  - exists wnew. split; [assumption|]. rewrite Haw. simpl.
    split; [discriminate | lia].
  - exists wnew. split; [assumption|]. rewrite Haw. simpl.
    split; [discriminate | lia].
  - eexists. split; [eapply grown_trans; [exact Hgw | exact Hgq]|].
    rewrite map_app, alias_answers_app, Haw. simpl. split; [discriminate | lia].
  - destruct IHResolve as (new & Hg & Hout & Hin).
    eexists. split.
    { eapply grown_trans; [exact Hgw|]. eapply grown_cons; [exact Hgq | exact Hg]. }
    rewrite map_app, alias_answers_app, Haw. simpl.
    match goal with H : find_cname _ = Some _ |- _ => rewrite H end. simpl.
    split; [intros E; f_equal; auto | intros E; specialize (Hin E); lia].
  - eexists. split; [eapply grown_trans; [exact Hgw | exact Hgq]|].
    rewrite map_app, alias_answers_app, Haw. simpl.
    match goal with H : find_cname _ = None |- _ => rewrite H end. simpl.
    split; [discriminate | lia].
  - eexists. split; [eapply grown_trans; [exact Hgw | exact Hgq]|].
    rewrite map_app, alias_answers_app, Haw. simpl.
    match goal with H : find_cname _ = None |- _ => rewrite H end. simpl.
    split; [discriminate | lia].
Qed.

(** X7. Only aliases keep [resolve] going: a run that is not over after
    [fuel] rounds has drawn a CNAME answer to its A query in each of
    them, and a run that is over has drawn fewer than [fuel]. *)
Theorem only_aliases_continue (fuel : nat) (domain : string) (st : State World) :
  exists new,
    grown st (snd (resolve fuel domain st)) new /\
    (fst (resolve fuel domain st) = OutOfFuel ->
     length (alias_answers (map snd new)) = fuel) /\
    (fst (resolve fuel domain st) <> OutOfFuel ->
     (length (alias_answers (map snd new)) < fuel)%nat).
Proof.
  destruct (resolve fuel domain st) as [out st'] eqn:Hr.
  apply resolve_Resolve in Hr. simpl. exact (Resolve_alias_count _ _ _ _ _ Hr).
Qed.

End Rounds.

(** ** The walk on any cache *)

Lemma first_with_ip_found (skipped : list string) (ns : string)
    (after : list string) (ips : Dict.t (list string)) (l : list string) :
  (forall x, In x skipped -> Dict.get x ips = None) ->
  Dict.get ns ips = Some l ->
  first_with_ip (skipped ++ ns :: after) ips = Some l.
Proof.
  induction skipped as [|x sk IH]; simpl; intros Hsk Hns.
  - now rewrite Hns.
  - rewrite (Hsk x) by now left. apply IH; auto.
Qed.

Lemma uncached_store (curr : string) (names : list string)
    (g : Dict.t (list string)) (c : Cache) (todo : list string) :
  ~ In curr todo ->
  uncached (cache_store curr (NS_IP g) (cache_store curr (NS names) c)) todo
  = uncached c todo.
Proof.
  intros Hn. unfold uncached. apply filter_ext_in. intros d Hd.
  rewrite cache_NS_store by discriminate. rewrite cache_NS_store_NS.
  destruct (String.eqb_spec curr d) as [->|]; [contradiction | reflexivity].
Qed.

(** For a list that may end in a marked element only. *)
Lemma marked_last_only {X} (bad : X -> Prop) (P : X -> Prop) (l : list X) :
  (Forall (fun x => ~ bad x) l \/
   exists before x, l = before ++ [x] /\ Forall (fun x => ~ bad x) before /\ P x) ->
  forall before x after, l = before ++ x :: after -> bad x -> after = [] /\ P x.
Proof.
  intros [Hall|(b & y & -> & Hb & Hy)] before x after E Hbad.
  - exfalso. subst l. apply Forall_app in Hall. destruct Hall as [_ Hall].
    inversion Hall; subst. contradiction.
  - destruct after as [|z after].
    + apply app_inj_tail in E. destruct E as [_ ->]. auto.
    + exfalso.
      destruct (exists_last (l := z :: after)) as (a' & w & Ha); [discriminate|].
      rewrite Ha in E.
      change (before ++ x :: a' ++ [w]) with (before ++ (x :: a') ++ [w]) in E.
      rewrite app_assoc in E. apply app_inj_tail in E. destruct E as [E _].
      subst b. apply Forall_app in Hb. destruct Hb as [_ Hb].
      inversion Hb; subst. contradiction.
Qed.

Lemma lookups_not_dead_end c failed hit :
  Forall (fun p => ~ dead_end p) (map (pair c) (lookups_of failed hit)).
Proof.
  apply Forall_forall. intros [c' e] Hin. apply in_map_iff in Hin.
  destruct Hin as (e' & [= <- <-] & Hin). unfold dead_end. simpl.
  unfold lookups_of in Hin. apply in_app_or in Hin. destruct Hin as [Hin|Hin].
  - apply in_map_iff in Hin. destruct Hin as (n & <- & _). tauto.
  - destruct hit as [[n ip]|]; [destruct Hin as [<-|[]]; tauto | destruct Hin].
Qed.

Section AnyCache.

Context {World : Type} {net : Network World}.

(** X1. At a suffix whose NS bucket is cached, the walk sends nothing
    and goes on, in the state it had, with the first address cached for
    the first listed nameserver that is a key of the cached NS_IP
    mapping; if the list cached for that nameserver is empty, taking its
    first address raises. *)
Theorem cached_ns_with_glue_sets_server (curr : string) (rest : list string)
    (server : string) (st : State World) (skipped : list string) (ns : string)
    (after : list string) (l : list string) :
  cache_NS curr (cache st) = Some (skipped ++ ns :: after) ->
  (forall x, In x skipped -> Dict.get x (cache_NS_IP curr (cache st)) = None) ->
  Dict.get ns (cache_NS_IP curr (cache st)) = Some l ->
  delegation_walk (curr :: rest) server st =
  match l with
  | ip :: _ => delegation_walk rest ip st
  | [] => (WalkIndexError, st)
  end.
Proof.
  intros Hns Hsk Hg. simpl. rewrite Hns.
  rewrite (first_with_ip_found _ _ _ _ _ Hsk Hg). now destruct l.
Qed.

Lemma Walk_dead_end todo server (st : State World) res st' :
  Walk todo server st res st' ->
  exists new,
    grown st st' new /\
    (Forall (fun p => ~ dead_end p) new \/
     exists before x,
       new = before ++ [x] /\ Forall (fun p => ~ dead_end p) before /\
       exists d s r, x = (cache st', EvQuery d s Q_NS (Some r)) /\
                     res = WalkServer s).
Proof.
  induction 1; outside.
  - exists []. split; [apply grown_refl|]. left. constructor.
  - assumption.
  - exists []. split; [apply grown_refl|]. left. constructor.
  - assumption.
  - eexists. split; [exact Hgq|]. left. repeat constructor. intros [].
  - eexists. split; [exact Hgq|]. right. exists [], (cache st, EvQuery curr server Q_NS (Some r)).
    split; [reflexivity|]. split; [constructor|].
    exists curr, server, r. split; [now rewrite Hcq | reflexivity].
  - destruct IHWalk as (new & Hg & Hd). apply grown_store_delegation in Hg.
    eexists. split; [eapply grown_cons; [exact Hgq | exact Hg]|].
    assert (Hq : ~ dead_end (cache st, EvQuery curr server Q_NS (Some r)))
      by (unfold dead_end; simpl; assumption).
    destruct Hd as [Hd|(b & x & -> & Hb & Hx)]; [left; now constructor|].
    right. exists ((cache st, EvQuery curr server Q_NS (Some r)) :: b), x.
    split; [reflexivity|]. split; [now constructor | assumption].
  - destruct IHWalk as (new & Hg & Hd).
    eexists. split.
    { eapply grown_cons; [exact Hgq|]. eapply grown_trans; [exact Hgl | exact Hg]. }
    assert (Hq : ~ dead_end (cache st, EvQuery curr server Q_NS (Some r)))
      by (unfold dead_end; simpl; assumption).
    destruct Hd as [Hd|(b & x & -> & Hb & Hx)].
    + left. constructor; [assumption|]. apply Forall_app.
      split; [apply lookups_not_dead_end | assumption].
    + right. eexists (_ :: _ ++ b), x. split; [simpl; now rewrite <- app_assoc|].
      split; [|assumption]. constructor; [assumption|].
      apply Forall_app. split; [apply lookups_not_dead_end | assumption].
  - eexists. split; [eapply grown_cons; [exact Hgq | exact Hgl]|].
    left. constructor; [unfold dead_end; simpl; assumption|].
    apply lookups_not_dead_end.
Qed.

(** X2. An NS query that is answered without any NS record is the last
    event of its walk: no later suffix is visited and nothing is stored
    (the cache after the walk is the cache of that query), and the walk
    hands the server that was asked on to the address query. *)
Theorem walk_stops_without_ns (todo : list string) (server : string)
    (st : State World) :
  exists new,
    grown st (snd (delegation_walk todo server st)) new /\
    forall before c d s r after,
      new = before ++ (c, EvQuery d s Q_NS (Some r)) :: after ->
      ns_answers_of r = [] ->
      after = [] /\
      fst (delegation_walk todo server st) = WalkServer s /\
      cache (snd (delegation_walk todo server st)) = c.
Proof.
  destruct (delegation_walk todo server st) as [res st'] eqn:Hw.
  apply delegation_walk_Walk in Hw. simpl.
  destruct (Walk_dead_end _ _ _ _ _ Hw) as (new & Hg & Hd).
  exists new. split; [assumption|].
  intros before c d s r after E Hr.
  destruct (marked_last_only dead_end
              (fun x => exists d s r, x = (cache st', EvQuery d s Q_NS (Some r)) /\
                                      res = WalkServer s)
              new Hd before _ after E Hr) as [Ha (d' & s' & r' & Hx & Hres)].
  injection Hx as -> _ -> _. auto.
Qed.

Lemma Walk_queries_uncached todo server (st : State World) res st' :
  Walk todo server st res st' ->
  NoDup todo ->
  exists new,
    grown st st' new /\
    (exists k, map fst (ns_queries (map snd new)) =
               firstn k (uncached (cache st) todo)) /\
    ((forall e, In e (map snd new) -> delegated e) ->
     (exists s, res = WalkServer s) ->
     map fst (ns_queries (map snd new)) = uncached (cache st) todo).
Proof.
  induction 1; intros Hnd;
    try (inversion Hnd as [|? ? Hnot Hnd']; subst);
    try match goal with
        | H : cache_NS ?curr (cache ?st) = _ |- _ =>
            unfold uncached; simpl filter; rewrite H; fold (uncached (cache st) rest)
        end; outside.
  - exists []. split; [apply grown_refl|]. split; [now exists 0%nat | auto].
  - auto.
  - exists []. split; [apply grown_refl|]. split; [now exists 0%nat|].
    intros _ [s Hs]. discriminate.
  - auto.
  - eexists. split; [exact Hgq|]. simpl.
    split; [now exists 1%nat|]. intros _ [s Hs]. discriminate.
  - eexists. split; [exact Hgq|]. simpl.
    split; [now exists 1%nat|].
    intros Hd _. exfalso. apply (Hd _ (or_introl eq_refl)). assumption.
  - destruct (IHWalk Hnd') as (new & Hg & [k Hk] & Hall).
    simpl in Hk, Hall. rewrite uncached_store, Hcq in Hk, Hall by assumption.
    apply grown_store_delegation in Hg.
    eexists. split; [eapply grown_cons; [exact Hgq | exact Hg]|].
    simpl. split; [exists (S k); simpl; now rewrite Hk|].
    intros Hd Hs. f_equal. apply Hall; auto.
  - destruct (IHWalk Hnd') as (new & Hg & [k Hk] & Hall).
    rewrite Hcl, uncached_store, Hcq in Hk, Hall by assumption.
    eexists. split.
    { eapply grown_cons; [exact Hgq|]. eapply grown_trans; [exact Hgl | exact Hg]. }
    simpl. rewrite map_app, map_snd_pair, ns_queries_app, ns_queries_lookups.
    simpl. split; [exists (S k); simpl; now rewrite Hk|].
    intros Hd Hs. f_equal. apply Hall; auto.
    intros e He. apply Hd. right. apply in_or_app. now right.
  - eexists. split; [eapply grown_cons; [exact Hgq | exact Hgl]|].
    simpl. rewrite map_snd_pair, ns_queries_lookups.
    simpl. split; [now exists 1%nat|]. intros _ [s Hs]. discriminate.
Qed.

(** X3. Whatever the cache holds, the NS queries of the walk of a name
    are for the suffixes that have no NS bucket when the walk starts, in
    the order of the walk and without repetition, as far as the walk
    gets; when each was answered with a delegation and the walk ended
    with a server, they are all of these suffixes. *)
Theorem walk_queries_the_uncached_suffixes (domain : string) (st : State World) :
  exists new,
    grown st (snd (delegation_walk (suffixes domain) ROOT_SERVER st)) new /\
    (exists k, map fst (ns_queries (map snd new)) =
               firstn k (uncached (cache st) (suffixes domain))) /\
    ((forall e, In e (map snd new) -> delegated e) ->
     (exists s, fst (delegation_walk (suffixes domain) ROOT_SERVER st)
                = WalkServer s) ->
     map fst (ns_queries (map snd new)) = uncached (cache st) (suffixes domain)).
Proof.
  destruct (delegation_walk (suffixes domain) ROOT_SERVER st) as [res st'] eqn:Hw.
  apply delegation_walk_Walk in Hw. simpl.
  apply (Walk_queries_uncached _ _ _ _ _ Hw (suffixes_NoDup domain)).
Qed.

End AnyCache.

(** ** Glue and suffixes *)

(** X10. The glue mapping read from a response gives, for a name of the
    nameserver list, the address of the last A record of the additional
    section owned by that name (trailing dots aside), alone in its list;
    it has no entry for a name without such a record or outside the
    nameserver list. *)
Theorem glue_is_last_matching_record (ns_answers : list string) (r : response)
    (ns : string) :
  Dict.get ns (ns_ips_of ns_answers r) =
  if mem_str ns ns_answers then
    match rev (glue_records ns r) with
    | a :: _ => Some [rdata a]
    | [] => None
    end
  else None.
Proof.
  unfold ns_ips_of, glue_records.
  change (@None (list string)) with (Dict.get ns (@nil (string * list string))).
  generalize (@nil (string * list string)) as acc.
  induction (additional r) as [|a adds IH]; intros acc; simpl.
  - now destruct (mem_str ns ns_answers), (Dict.get ns acc).
  - rewrite IH. clear IH.
    destruct (Z.eqb (rtype a) QTYPE_A) eqn:EA; simpl.
    2:{ reflexivity. }
    destruct (String.eqb_spec (rstrip_dot (rname a)) ns) as [En|En].
    + rewrite En. destruct (mem_str ns ns_answers) eqn:Em; [|reflexivity].
      simpl. rewrite DictFacts.get_set_same.
      now destruct (rev _).
    + destruct (mem_str (rstrip_dot (rname a)) ns_answers);
        rewrite ?DictFacts.get_set_other by assumption; reflexivity.
Qed.

Lemma tails_skipn {X} (l : list X) :
  map (fun i => skipn i l) (seq 0 (length l)) = tails l.
Proof.
  induction l as [|x l IH]; simpl; [reflexivity|].
  f_equal. rewrite <- seq_shift, map_map. simpl. exact IH.
Qed.

Lemma suffixes_tails (domain : string) :
  suffixes domain = rev (map join_dot (tails (split_dot domain))).
Proof.
  unfold suffixes. rewrite <- tails_skipn, map_map, map_rev. reflexivity.
Qed.

Lemma suffixes_proper (domain : string) :
  suffixes domain = proper_suffixes domain ++ [domain].
Proof.
  rewrite suffixes_tails. unfold proper_suffixes.
  destruct (split_dot_cons domain) as (p & ps & E).
  pose proof (join_split_dot domain) as J. rewrite E in *. simpl.
  now rewrite J.
Qed.

Lemma proper_suffixes_dot (c : ascii) (s : string) :
  is_dot c = true ->
  proper_suffixes (String c s) = proper_suffixes s ++ [s].
Proof.
  intros Hc. unfold proper_suffixes at 1. simpl. rewrite Hc. simpl.
  rewrite <- suffixes_tails. apply suffixes_proper.
Qed.

Lemma proper_suffixes_other (c : ascii) (s : string) :
  is_dot c = false -> proper_suffixes (String c s) = proper_suffixes s.
Proof.
  intros Hc. unfold proper_suffixes. simpl. rewrite Hc.
  now destruct (split_dot_cons s) as (p & ps & ->).
Qed.

Lemma in_proper_suffixes (domain s : string) :
  In s (proper_suffixes domain) <->
  exists pre, domain = (pre ++ "." ++ s)%string.
Proof.
  induction domain as [|c d IH].
  - split; [intros [] | intros [[|a pre] H]; discriminate].
  - destruct (is_dot c) eqn:Hc.
    + rewrite proper_suffixes_dot by assumption.
      apply Ascii.eqb_eq in Hc. subst c. rewrite in_app_iff, IH. split.
      * intros [[pre ->]|[<-|[]]]; [now exists (String "." pre) | now exists ""].
      * intros [[|a pre] H]; simpl in H; inversion H; subst; [right | left]; eauto.
        now left.
    + rewrite proper_suffixes_other by assumption. rewrite IH. split.
      * intros [pre ->]. now exists (String c pre).
      * intros [[|a pre] H]; simpl in H; inversion H; subst; [|eauto].
        discriminate.
Qed.

(** X11. The suffixes the walk visits are the name itself and every
    part of it that follows one of its dots, empty parts included (after
    a trailing dot, between two dots). *)
Theorem suffixes_are_the_dot_suffixes (domain s : string) :
  In s (suffixes domain) <->
  s = domain \/ exists pre, domain = (pre ++ "." ++ s)%string.
Proof.
  rewrite suffixes_proper, in_app_iff, in_proper_suffixes. simpl.
  split; [intros [H|[H|[]]]; auto | intros [H|H]; auto].
Qed.

(** ** The command loop *)

Lemma pieces_one_word (s : string) :
  one_word s = true -> pieces s = [s].
Proof.
  unfold one_word. induction s as [|c s IH]; simpl; [reflexivity|].
  intros H. apply andb_prop in H. destruct H as [Hc Hs].
  destruct (is_space c); [discriminate|]. now rewrite IH.
Qed.

Lemma one_word_app (s1 s2 : string) :
  one_word s1 = true -> one_word s2 = true -> one_word (s1 ++ s2) = true.
Proof.
  unfold one_word. induction s1 as [|c s1 IH]; simpl; [auto|].
  intros H1 H2. apply andb_prop in H1. destruct H1 as [-> H1]. simpl. auto.
Qed.

Section Session.

Context {World : Type} {net : Network World}.

Lemma command_log (fuel : nat) (line : string) (st : State World) :
  exists new,
    grown st (state_after (command fuel line st)) new /\
    Forall bucket_absent new /\
    (is_query line = false ->
     new = [] /\ world (state_after (command fuel line st)) = world st).
Proof.
  assert (Z0 : forall (P : Prop) (st' : State World),
             log st' = log st -> world st' = world st ->
             exists new, grown st st' new /\ Forall bucket_absent new /\
                         (P -> new = [] /\ world st' = world st)).
  { intros P st' Hl Hw. exists []. unfold grown. rewrite app_nil_r.
    repeat split; auto. }
  unfold command, is_query.
  destruct (String.eqb (strip line) ""); [now apply Z0|].
  destruct (String.eqb (strip line) ".exit"); [now apply Z0|].
  destruct (String.eqb (strip line) ".list"); [now apply Z0|].
  destruct (String.eqb (strip line) ".clear"); [now apply Z0|].
  destruct (String.prefix ".remove" (strip line)).
  - destruct (split (strip line)) as [|w [|num ws]]; try now apply Z0.
    destruct (isdigit num); [|now apply Z0].
    destruct (remove_cache_N (int num) (cache st)). now apply Z0.
  - simpl. destruct (resolve fuel (strip line) st) as [out st'] eqn:Hr.
    apply resolve_Resolve in Hr.
    destruct (Resolve_log _ _ _ _ _ Hr) as (new & Hg & _ & Ha).
    exists new.
    destruct out as [[[|ip ips]|]| |]; simpl; repeat split; auto; discriminate.
Qed.

Lemma command_cache_ok (fuel : nat) (line : string) (st : State World) :
  cache_ok (cache st) ->
  cache_ok (cache (state_after (command fuel line st))) /\
  forall st', command fuel line st <> Stop ResolveIndexError st'.
Proof.
  intros Hok. unfold command.
  destruct (String.eqb (strip line) ""); [split; [assumption | discriminate]|].
  destruct (String.eqb (strip line) ".exit"); [split; [assumption | discriminate]|].
  destruct (String.eqb (strip line) ".list"); [split; [assumption | discriminate]|].
  destruct (String.eqb (strip line) ".clear").
  { split; [|discriminate]. simpl. split; [split; [constructor | intros ? ? []]|].
    split; intros; discriminate. }
  destruct (String.prefix ".remove" (strip line)).
  - destruct (split (strip line)) as [|w [|num ws]];
      try (split; [assumption | discriminate]).
    destruct (isdigit num); [|split; [assumption | discriminate]].
    pose proof (proj1 (remove_keeps_cache_ok (int num) (cache st) Hok)) as Hr.
    destruct (remove_cache_N (int num) (cache st)). split; [exact Hr | discriminate].
  - pose proof (resolve_keeps_cache_ok fuel (strip line) st Hok) as (H1 & H2 & H3).
    destruct (resolve fuel (strip line) st) as [out st'].
    destruct out as [[[|ip ips]|]| |]; simpl in *;
      (split; [assumption | try discriminate]).
    congruence.
Qed.

(** X15. A session that starts on a cache that is a dictionary of
    dictionaries with non-empty address lists (the empty cache of the
    program's start is one) keeps it so through every resolution,
    listing, clearing and removal, and never ends by the [IndexError] of
    [resolve]. *)
Theorem session_keeps_cache_ok (fuel : nat) (lines : list string) :
  forall st : State World,
    plain_lines lines ->
    cache_ok (cache st) ->
    cache_ok (cache (snd (main fuel lines st))) /\
    fst (fst (main fuel lines st)) <> ResolveIndexError.
Proof.
  induction lines as [|line rest IH]; intros st Hascii Hok; simpl.
  - split; [assumption | discriminate].
  - unfold plain_lines in Hascii. simpl in Hascii.
    apply andb_prop in Hascii. destruct Hascii as [_ Hrest].
    destruct (command_cache_ok fuel line st Hok) as [Hc Hne].
    destruct (command fuel line st) as [out st'|e st'] eqn:E; simpl in *.
    + specialize (IH st' Hrest Hc).
      destruct (main fuel rest st') as [[e outs] st'']. exact IH.
    + split; [assumption|]. intros ->. now apply (Hne st').
Qed.

(** X16. A line that is [.remove] followed by anything but whitespace
    ([.remove] itself, [.removeall]) ends the program: the number is
    missing where it is looked for, the lines after it are not read,
    nothing is printed for it and the cache is as it was. *)
Theorem remove_without_number_raises (fuel : nat) (line : string)
    (rest : list string) (st : State World) (w : string) :
  plain_line line = true ->
  strip line = (".remove" ++ w)%string ->
  one_word w = true ->
  main fuel (line :: rest) st = (RemoveIndexError, [], st).
Proof.
  intros _ Hs Hw. simpl. unfold command. rewrite Hs.
  assert (P : pieces (".remove" ++ w) = [(".remove" ++ w)%string])
    by (apply pieces_one_word; now apply (one_word_app ".remove" w)).
  unfold split. rewrite P. cbn. now destruct w.
Qed.

(** X17. In a session every query goes out at a moment when the cache
    lacks the bucket it asks for, removals and clearings between the
    resolutions included; and a session none of whose lines is given to
    [resolve] sends nothing and asks the system resolver nothing. *)
Theorem session_queries_only_for_absent_buckets (fuel : nat)
    (lines : list string) :
  forall st : State World,
    plain_lines lines ->
    exists new,
      grown st (snd (main fuel lines st)) new /\
      Forall bucket_absent new /\
      (forallb (fun line => negb (is_query line)) lines = true ->
       new = [] /\ world (snd (main fuel lines st)) = world st).
Proof.
  induction lines as [|line rest IH]; intros st Hascii; simpl.
  - exists []. split; [apply grown_refl|]. split; [constructor | auto].
  - unfold plain_lines in Hascii. simpl in Hascii.
    apply andb_prop in Hascii. destruct Hascii as [_ Hrest].
    destruct (command_log fuel line st) as (n1 & Hg1 & Ha1 & Hq1).
    destruct (command fuel line st) as [out st'|e st'] eqn:E; simpl in *.
    + destruct (IH st' Hrest) as (n2 & Hg2 & Ha2 & Hq2).
      destruct (main fuel rest st') as [[e outs] st'']. simpl in *.
      exists (n1 ++ n2). split; [eapply grown_trans; eauto|].
      split; [apply Forall_app; auto|].
      intros H. apply andb_prop in H. destruct H as [Hl Hr].
      apply negb_true_iff in Hl.
      destruct (Hq1 Hl) as [-> Hw1]. destruct (Hq2 Hr) as [-> Hw2].
      split; [reflexivity | congruence].
    + exists n1. split; [assumption|]. split; [assumption|].
      intros H. apply andb_prop in H. destruct H as [Hl _].
      apply negb_true_iff in Hl. auto.
Qed.

End Session.

(** ** Accepted replies and warm caches *)

Section Accepting.

Context {World : Type} {net : Network World}.

(** X18. [get_dns_record] returns sections exactly when the reply is a
    packet whose header carries the identifier of the query and the
    response code NOERROR and whose sections parse, and it returns those
    sections as they are. *)
Theorem accepted_reply (d s : string) (rt : record_type) (st : State World)
    (r : response) :
  fst (get_dns_record d s rt st) = Some r <->
  exists h,
    snd (fst (exchange (world st) d s rt)) = Packet h (Some r) /\
    header_id h = fst (fst (exchange (world st) d s rt)) /\
    header_rcode h = RCODE_NOERROR.
Proof.
  unfold get_dns_record.
  destruct (exchange (world st) d s rt) as [[qid rep] w]. simpl.
  destruct rep as [| |h sections]; simpl.
  - split; [discriminate | intros (h & H & _); discriminate].
  - split; [discriminate | intros (h & H & _); discriminate].
  - destruct (Z.eqb_spec qid (header_id h)) as [E|E];
      destruct (Z.eqb_spec (header_rcode h) RCODE_NOERROR) as [F|F]; simpl.
    + split; [intros ->; exists h; auto | intros (h' & [= -> ->] & _); reflexivity].
    + split; [discriminate | intros (h' & [= -> ->] & _ & H); contradiction].
    + split; [discriminate | intros (h' & [= -> ->] & H & _); congruence].
    + split; [discriminate | intros (h' & [= -> ->] & H & _); congruence].
Qed.

(** X19. On a cache that holds an NS bucket for every suffix to visit,
    the walk leaves the state as it was: nothing is sent, looked up or
    stored. *)
Theorem warm_walk_sends_nothing (todo : list string) :
  forall (server : string) (st : State World),
    (forall d, In d todo -> cache_NS d (cache st) <> None) ->
    snd (delegation_walk todo server st) = st.
Proof.
  induction todo as [|curr rest IH]; intros server st Hall; simpl; [reflexivity|].
  destruct (cache_NS curr (cache st)) as [ns_cache|] eqn:Hns.
  - assert (Hrest : forall d, In d rest -> cache_NS d (cache st) <> None)
      by (intros d Hd; apply Hall; now right).
    destruct (first_with_ip ns_cache _) as [[|ip ips]|]; simpl; auto.
  - exfalso. apply (Hall curr); [now left | assumption].
Qed.

End Accepting.

(** ** Worked runs for the further properties *)

Lemma cache_ok_empty : cache_ok [].
Proof.
  split; [split; [constructor | intros ? ? []]|].
  split; intros; discriminate.
Defined.

Lemma cache_xy_ok : cache_ok cache_xy.
Proof.
  split; [exact cache_xy_wf|]. split.
  - intros d. unfold cache_A, cache_entry, cache_xy. simpl.
    destruct (String.eqb d "x.com"); [discriminate|].
    destruct (String.eqb d "y.com"); discriminate.
  - intros d ns. unfold cache_NS_IP, cache_entry, cache_xy. simpl.
    destruct (String.eqb d "x.com"); [discriminate|].
    destruct (String.eqb d "y.com"); discriminate.
Defined.

(** X1 on the cached nameserver of b.c: a.b.c is walked with 9.9.9.9. *)
Lemma cached_ns_with_glue_witness :
  delegation_walk ["b.c"; "a.b.c"] "1.1.1.1" st_reuse =
  delegation_walk ["a.b.c"] "9.9.9.9" st_reuse.
Proof.
  apply (cached_ns_with_glue_sets_server "b.c" ["a.b.c"] "1.1.1.1" st_reuse
           [] "ns1.b.c" [] ["9.9.9.9"]).
  - reflexivity.
  - intros x [].
  - reflexivity.
Defined.

(** X2 on the walk of c answered without NS record. *)
Lemma walk_stops_without_ns_witness :
  fst (delegation_walk ["c"; "b.c"] ROOT_SERVER st_no_ns) = WalkServer ROOT_SERVER.
Proof.
  destruct (walk_stops_without_ns ["c"; "b.c"] ROOT_SERVER st_no_ns)
    as (new & Hg & Hlast).
  unfold grown in Hg. simpl log at 2 in Hg. simpl app in Hg.
  refine (proj1 (proj2 (Hlast [] _ _ _ _ [] _ _))).
  - rewrite <- Hg. reflexivity.
  - reflexivity.
Defined.

(** X4 on the run that fails at its second NS query: the A buckets are
    as before. *)
Lemma failed_run_witness :
  cache_A "b.c" (cache (snd (resolve 3 "b.c" st_fail)))
  = cache_A "b.c" (cache st_fail).
Proof.
  apply failed_run_leaves_A_buckets. intros ips. vm_compute. discriminate.
Defined.

(** X5 on the run for a.b.c. *)
Lemma result_is_cached_witness :
  exists final,
    cache_A final (cache (snd (resolve 3 "a.b.c" st_abc))) = Some ["9.9.9.9"] /\
    forall fuel',
      resolve (S fuel') final (snd (resolve 3 "a.b.c" st_abc)) =
      (Return (Some ["9.9.9.9"]), snd (resolve 3 "a.b.c" st_abc)).
Proof. apply result_is_cached. reflexivity. Defined.

(** X8 on the run for a.b.c from the empty cache. *)
Lemma resolve_keeps_cache_ok_witness :
  cache_ok (cache (snd (resolve 3 "a.b.c" st_abc))) /\
  fst (resolve 3 "a.b.c" st_abc) <> IndexError /\
  fst (resolve 3 "a.b.c" st_abc) <> Return (Some []).
Proof. apply resolve_keeps_cache_ok. exact cache_ok_empty. Defined.

(** X12 on the three records of [cache_xy], the second removed. *)
Lemma remove_then_lookup_witness :
  exists d b,
    nth_error (cache_pairs cache_xy) (Z.to_nat (2 - 1)) = Some (d, b) /\
    entry_get (kind_of b) (cache_entry d (fst (remove_cache_N 2 cache_xy))) = None /\
    forall d' k',
      (d', k') <> (d, kind_of b) ->
      entry_get k' (cache_entry d' (fst (remove_cache_N 2 cache_xy))) =
      entry_get k' (cache_entry d' cache_xy).
Proof. apply remove_then_lookup; [exact cache_xy_wf | simpl; lia]. Defined.

(** X13 on [cache_xy]. *)
Lemma remove_keeps_cache_ok_witness :
  cache_ok (fst (remove_cache_N 2 cache_xy)).
Proof. apply (remove_keeps_cache_ok 2 cache_xy). exact cache_xy_ok. Defined.

(** X14 on [cache_xy]. *)
Lemma list_cache_lists_buckets_witness :
  NoDup (list_cache cache_xy) /\
  forall d k, In (d, k) (list_cache cache_xy) <->
              entry_mem k (cache_entry d cache_xy) = true.
Proof. apply list_cache_lists_buckets. exact cache_xy_wf. Defined.

(** X15 on a session from the empty cache. *)
Lemma session_keeps_cache_ok_witness :
  cache_ok (cache (snd (main 3 session_lines st_no_ns))) /\
  fst (fst (main 3 session_lines st_no_ns)) <> ResolveIndexError.
Proof.
  apply session_keeps_cache_ok; [reflexivity | exact cache_ok_empty].
Defined.

(** The same session, run. *)
Example session_run :
  fst (main 3 session_lines st_no_ns) =
  (Exited, [Listing []; Result "c" ["9.9.9.9"]; RemoveSaid (Removed 1 "c" K_A)]) /\
  cache (snd (main 3 session_lines st_no_ns)) = [].
Proof. split; reflexivity. Qed.

(** X16 on [.remove] typed between blanks. *)
Lemma remove_without_number_witness :
  main 3 ["  .remove "; ".exit"] st_cached = (RemoveIndexError, [], st_cached).
Proof.
  apply (remove_without_number_raises 3 "  .remove " [".exit"] st_cached "");
    reflexivity.
Defined.

(** X17 on the same session. *)
Lemma session_queries_witness :
  exists new,
    grown st_no_ns (snd (main 3 session_lines st_no_ns)) new /\
    Forall bucket_absent new /\
    (forallb (fun line => negb (is_query line)) session_lines = true ->
     new = [] /\ world (snd (main 3 session_lines st_no_ns)) = world st_no_ns).
Proof. apply session_queries_only_for_absent_buckets. reflexivity. Defined.

(** X19 on the cached b.c. *)
Lemma warm_walk_witness :
  snd (delegation_walk ["b.c"] ROOT_SERVER st_reuse) = st_reuse.
Proof.
  apply warm_walk_sends_nothing. intros d [<-|[]]. vm_compute. discriminate.
Defined.

(** X3 on a.b.c with b.c cached: the suffixes to ask about are c and
    a.b.c. *)
Lemma walk_queries_uncached_witness :
  uncached (cache st_reuse) (suffixes "a.b.c") = ["c"; "a.b.c"] /\
  exists new,
    grown st_reuse (snd (delegation_walk (suffixes "a.b.c") ROOT_SERVER st_reuse)) new /\
    (exists k, map fst (ns_queries (map snd new)) =
               firstn k (uncached (cache st_reuse) (suffixes "a.b.c"))) /\
    ((forall e, In e (map snd new) -> delegated e) ->
     (exists s, fst (delegation_walk (suffixes "a.b.c") ROOT_SERVER st_reuse)
                = WalkServer s) ->
     map fst (ns_queries (map snd new)) =
     uncached (cache st_reuse) (suffixes "a.b.c")).
Proof.
  split; [reflexivity|].
  exact (walk_queries_the_uncached_suffixes "a.b.c" st_reuse).
Defined.

(** X7 on the alias chain that comes back, cut after two rounds. *)
Lemma only_aliases_continue_witness :
  fst (resolve 2 "www.example.com" st_alias_loop) = OutOfFuel /\
  length (alias_answers (events (snd (resolve 2 "www.example.com" st_alias_loop))))
  = 2%nat.
Proof.
  split; [reflexivity|].
  destruct (only_aliases_continue 2 "www.example.com" st_alias_loop)
    as (new & Hg & Hout & _).
  unfold grown in Hg. simpl log at 2 in Hg. simpl app in Hg.
  unfold events. rewrite Hg. apply Hout. reflexivity.
Defined.

(** * The walk and the keys, in full *)

(** ** The order of the suffixes *)






Section WalkInFull.

Context {World : Type} {net : Network World}.



End WalkInFull.


(** ** The glue address, read off the response *)

Lemma mem_str_In (x : string) (names : list string) :
  mem_str x names = true <-> In x names.
Proof.
  unfold mem_str. rewrite existsb_exists. split.
  - intros (y & Hy & E). apply String.eqb_eq in E. now subst.
  - intros H. exists x. split; [assumption | apply String.eqb_refl].
Qed.

(** The loop of lines 106-108 started from any mapping: a later record
    of a listed name replaces what the mapping held for it. *)
Lemma glue_loop_get (names : list string) (ns : string) (adds : list RR) :
  forall acc : Dict.t (list string),
    Dict.get ns
      (fold_left
         (fun ns_ips ans =>
            if Z.eqb (rtype ans) QTYPE_A && mem_str (rstrip_dot (rname ans)) names
            then Dict.set (rstrip_dot (rname ans)) [rdata ans] ns_ips
            else ns_ips) adds acc)
    = match rev (filter (fun ans => Z.eqb (rtype ans) QTYPE_A
                                    && String.eqb (rstrip_dot (rname ans)) ns)
                        adds) with
      | a :: _ => if mem_str ns names then Some [rdata a] else Dict.get ns acc
      | [] => Dict.get ns acc
      end.
Proof.
  induction adds as [|a adds IH]; intros acc; simpl; [reflexivity|].
  rewrite IH. clear IH.
  destruct (Z.eqb (rtype a) QTYPE_A) eqn:EA; simpl.
  2:{ reflexivity. }
  destruct (String.eqb_spec (rstrip_dot (rname a)) ns) as [En|En].
  - rewrite En. simpl rev.
    destruct (mem_str ns names) eqn:Em.
    + rewrite DictFacts.get_set_same. now destruct (rev _).
    + now destruct (rev _).
  - destruct (mem_str (rstrip_dot (rname a)) names);
      rewrite ?DictFacts.get_set_other by assumption; reflexivity.
Qed.

Lemma glue_of_listed (names : list string) (r : response) (ns : string) :
  In ns names ->
  Dict.get ns (ns_ips_of names r) =
  match rev (glue_records ns r) with
  | a :: _ => Some [rdata a]
  | [] => None
  end.
Proof.
  intros Hin. apply mem_str_In in Hin.
  unfold ns_ips_of, glue_records. rewrite glue_loop_get, Hin.
  now destruct (rev _).
Qed.

Lemma glue_none_iff (names : list string) (r : response) (ns : string) :
  In ns names ->
  (Dict.get ns (ns_ips_of names r) = None <-> glue_records ns r = []).
Proof.
  intros Hin. rewrite (glue_of_listed _ _ _ Hin).
  destruct (rev (glue_records ns r)) as [|a l] eqn:E.
  - split; [intros _|reflexivity].
    rewrite <- (rev_involutive (glue_records ns r)), E. reflexivity.
  - split; [discriminate|]. intros H. now rewrite H in E.
Qed.


(** ** What an answered NS query leaves in the cache *)

Section DelegationInFull.

Context {World : Type} {net : Network World}.

(** C5, as the code has it.  An NS query of the walk that is answered
    is followed by one of two things.  With at least one NS record among
    answers and authority, the nameserver list and the glue mapping read
    from the additional section (one address per listed nameserver that
    owns an A record there, none for the others) are the NS and NS_IP
    buckets of the suffix, whatever its entry held before, at every later
    event of the walk, the lookups that select the next server included,
    and at its end.  Without any NS record the walk ends at once with the
    server that was asked, and the cache is the one the query found:
    nothing was written. *)
Theorem delegation_is_cached (curr : string) (rest : list string)
    (server : string) (st : State World) (r : response) (st1 : State World) :
  cache_NS curr (cache st) = None ->
  get_dns_record curr server Q_NS st = (Some r, st1) ->
  (ns_answers_of r <> [] ->
   forall res st',
     delegation_walk (curr :: rest) server st = (res, st') ->
     let stored c :=
       cache_NS curr c = Some (ns_answers_of r) /\
       cache_NS_IP curr c = ns_ips_of (ns_answers_of r) r /\
       forall ns,
         Dict.get ns (cache_NS_IP curr c) =
         if mem_str ns (ns_answers_of r) then
           match rev (glue_records ns r) with
           | a :: _ => Some [rdata a]
           | [] => None
           end
         else None in
     stored (cache st') /\
     exists later,
       grown st st' ((cache st, EvQuery curr server Q_NS (Some r)) :: later) /\
       forall c e, In (c, e) later -> stored c) /\
  (ns_answers_of r = [] ->
   delegation_walk (curr :: rest) server st = (WalkServer server, st1) /\
   cache st1 = cache st /\
   grown st st1 [(cache st, EvQuery curr server Q_NS (Some r))]).
Proof.
  intros Hns Hq. split.
  - intros Hne res st' Hw stored.
    destruct (delegation_stored curr rest server st r st1 res st' Hns Hq Hne Hw)
      as ((S1 & S2) & later & Hg & Hl).
    assert (G : forall c,
               cache_NS curr c = Some (ns_answers_of r) /\
               cache_NS_IP curr c = ns_ips_of (ns_answers_of r) r ->
               stored c).
    { intros c [H1 H2]. split; [assumption|]. split; [assumption|].
      intros ns. rewrite H2. unfold ns_ips_of, glue_records.
      rewrite glue_loop_get.
      destruct (mem_str ns (ns_answers_of r)); now destruct (rev _). }
    split; [now apply G|].
    exists later. split; [assumption|].
    intros c e Hin. apply G. exact (Hl c e Hin).
  - intros E. split; [|now apply get_dns_record_grown in Hq].
    simpl. now rewrite Hns, Hq, E.
Qed.

End DelegationInFull.

(** C5 where the entry of c held a stale NS_IP bucket and the referral
    for c arrives: after the walk the buckets of c are those of the
    referral. *)
Lemma delegation_is_cached_witness :
  cache_NS "c" (cache (snd (delegation_walk ["c"] ROOT_SERVER st_stale)))
    = Some ["ns.c"] /\
  cache_NS_IP "c" (cache (snd (delegation_walk ["c"] ROOT_SERVER st_stale)))
    = [("ns.c", ["1.1.1.1"])].
Proof.
  destruct (delegation_is_cached "c" [] ROOT_SERVER st_stale referral_c
              (snd (get_dns_record "c" ROOT_SERVER Q_NS st_stale))
              ltac:(reflexivity) ltac:(reflexivity)) as [Hsome _].
  destruct (Hsome ltac:(discriminate)
              (fst (delegation_walk ["c"] ROOT_SERVER st_stale))
              (snd (delegation_walk ["c"] ROOT_SERVER st_stale))
              (surjective_pairing _)) as ((H1 & H2 & _) & _).
  split; [exact H1 | exact H2].
Defined.

(** ** Where a walk stops *)

Lemma split_at_other {X} (P : X -> Prop) (l1 l2 before : list X) (y : X)
    (after : list X) :
  Forall P l1 -> ~ P y ->
  l1 ++ l2 = before ++ y :: after ->
  exists b, before = l1 ++ b /\ l2 = b ++ y :: after.
Proof.
  revert before. induction l1 as [|x l1 IH]; intros before Hall Hy E.
  - exists before. auto.
  - inversion Hall as [|? ? Hx Hl1]; subst.
    destruct before as [|z before]; simpl in E; inversion E; subst.
    + contradiction.
    + destruct (IH before Hl1 Hy) as (b & -> & ->); [assumption|].
      now exists b.
Qed.

Lemma lookups_are_lookups c failed hit :
  Forall is_lookup (map (pair c) (lookups_of failed hit)).
Proof.
  apply Forall_forall. intros [c' e] Hin. apply in_map_iff in Hin.
  destruct Hin as (e' & [= <- <-] & Hin). unfold is_lookup. simpl.
  unfold lookups_of in Hin. apply in_app_or in Hin. destruct Hin as [Hin|Hin].
  - apply in_map_iff in Hin. destruct Hin as (n & <- & _). exact I.
  - destruct hit as [[n ip]|]; [destruct Hin as [<-|[]]; exact I | destruct Hin].
Qed.

(** The lookups of a list that had an answer are not the lookups of the
    whole list without answer. *)
Lemma lookups_hit_differ (c c2 : Cache) (failed : list string) (ns ip : string)
    (rest : list string) (more after : list (Cache * event)) :
  map (pair c) (lookups_of failed (Some (ns, ip))) ++ more
  <> map (pair c2) (lookups_of (failed ++ ns :: rest) None) ++ after.
Proof.
  unfold lookups_of. rewrite app_nil_r.
  induction failed as [|n failed IH]; simpl; intros E.
  - discriminate.
  - injection E as _ E. now apply IH.
Qed.

Lemma lookups_none_whole (c c2 : Cache) (names : list string)
    (after : list (Cache * event)) :
  map (pair c) (lookups_of names None)
  = map (pair c2) (lookups_of names None) ++ after ->
  after = [].
Proof.
  intros E. apply (f_equal (@length _)) in E.
  rewrite length_app, !length_map in E.
  destruct after; [reflexivity | simpl in E; lia].
Qed.

Section WalkStops.

Context {World : Type} {net : Network World}.

(** A delegation none of whose nameservers has glue or is answered for
    by the system resolver ends the walk. *)
Lemma Walk_unresolved todo server (st : State World) res st' :
  Walk todo server st res st' ->
  exists new,
    grown st st' new /\
    forall before c d s r c2 after,
      new = before ++ (c, EvQuery d s Q_NS (Some r))
                   :: map (pair c2) (lookups_of (ns_answers_of r) None) ++ after ->
      ns_answers_of r <> [] ->
      (forall x, In x (ns_answers_of r) -> glue_records x r = []) ->
      after = [] /\ res = WalkNone.
Proof.
  assert (Hq : forall c d s (r : response),
             ~ is_lookup (c, EvQuery d s Q_NS (Some r)))
    by (intros c d s r H; exact H).
  induction 1; outside.
  - exists []. split; [apply grown_refl|].
    intros [|x b] * E; discriminate E.
  - assumption.
  - exists []. split; [apply grown_refl|].
    intros [|x b] * E; discriminate E.
  - assumption.
  - eexists. split; [exact Hgq|].
    intros [|x [|y b]] * E; discriminate E.
  - eexists. split; [exact Hgq|].
    intros [|x [|y b]] c d s r' c2 aft E Hne; try discriminate E.
    injection E as _ _ _ <- _. contradiction.
  - (* glue *)
    destruct IHWalk as (new & Hg & Hn). apply grown_store_delegation in Hg.
    eexists. split; [eapply grown_cons; [exact Hgq | exact Hg]|].
    intros [|x b] c d s r' c2 aft E Hne Hno.
    + exfalso. injection E as _ _ _ <- _.
      match goal with H : first_with_ip _ _ = Some _ |- _ =>
        destruct (first_with_ip_some _ _ _ H) as (sk & n & af & Hd & _ & Hget)
      end.
      assert (Hin : In n (ns_answers_of r))
        by (rewrite Hd; apply in_or_app; right; now left).
      rewrite (proj2 (glue_none_iff _ r n Hin) (Hno n Hin)) in Hget.
      discriminate.
    + injection E as _ E. eapply Hn; eassumption.
  - (* a lookup answered *)
    destruct IHWalk as (new & Hg & Hn).
    eexists. split.
    { eapply grown_cons; [exact Hgq|]. eapply grown_trans; [exact Hgl | exact Hg]. }
    intros [|x b] c d s r' c2 aft E Hne Hno.
    + exfalso. injection E as _ _ _ <- E.
      rewrite Hnames in E. exact (lookups_hit_differ _ _ _ _ _ _ _ _ E).
    + injection E as _ E.
      destruct (split_at_other is_lookup _ _ _ _ _
                  (lookups_are_lookups _ _ _) (Hq c d s r') E) as (b' & _ & E').
      eapply Hn; eassumption.
  - (* no lookup answered *)
    eexists. split; [eapply grown_cons; [exact Hgq | exact Hgl]|].
    intros [|x b] c d s r' c2 aft E Hne Hno.
    + injection E as _ _ _ <- E.
      split; [exact (lookups_none_whole _ _ _ _ E) | reflexivity].
    + exfalso. injection E as _ E.
      match type of E with
      | ?l = _ => assert (L : Forall is_lookup l) by apply lookups_are_lookups
      end.
      rewrite E in L. apply Forall_app in L. destruct L as [_ L].
      inversion L as [|? ? Hx _]; subst. exact (Hq _ _ _ _ Hx).
Qed.

End WalkStops.

(** ** The next server *)

Section NextServerInFull.

Context {World : Type} {net : Network World}.


End NextServerInFull.



Section AbsentInFull.

Context {World : Type} {net : Network World}.

(** C7, as the code has it.  In every run of [resolve] each query asks
    for a bucket the cache does not hold at that moment (an NS query
    for a suffix without NS bucket, an A query for a name without A
    bucket), and a suffix whose NS bucket is in the cache when the run
    starts gets no NS query in it; with an A bucket for the name nothing
    is sent at all.  An absent bucket leads to a query as far as the run
    gets: at a suffix the walk reaches without NS bucket the NS query is
    sent, and after a walk that ends with a server the A query is sent.
    And a walk gets no further than a failed exchange, an NS query
    answered without NS record, or a delegation whose nameservers have
    no glue and no answer from the system resolver: each is the end of
    the log of its walk, so the suffixes after it are not queried. *)
Theorem queries_only_for_absent_buckets :
  (forall fuel domain (st : State World) out st',
      resolve fuel domain st = (out, st') ->
      exists new,
        grown st st' new /\
        Forall bucket_absent new /\
        forall d names,
          cache_NS d (cache st) = Some names ->
          forall c s r, ~ In (c, EvQuery d s Q_NS r) new) /\
  (forall fuel domain (st : State World) ips,
      cache_A domain (cache st) = Some ips ->
      resolve (S fuel) domain st = (Return (Some ips), st)) /\
  (forall curr rest server (st : State World),
      cache_NS curr (cache st) = None ->
      exists result res st' later,
        delegation_walk (curr :: rest) server st = (res, st') /\
        grown st st' ((cache st, EvQuery curr server Q_NS result) :: later)) /\
  (forall fuel domain (st : State World) server st1,
      cache_A domain (cache st) = None ->
      delegation_walk (suffixes domain) ROOT_SERVER st = (WalkServer server, st1) ->
      exists result out st' later,
        resolve (S fuel) domain st = (out, st') /\
        grown st1 st' ((cache st1, EvQuery domain server Q_A result) :: later)) /\
  (forall todo server (st : State World),
      exists new,
        grown st (snd (delegation_walk todo server st)) new /\
        (forall before c d s rt after,
            new = before ++ (c, EvQuery d s rt None) :: after ->
            after = [] /\ fst (delegation_walk todo server st) = WalkNone) /\
        (forall before c d s r after,
            new = before ++ (c, EvQuery d s Q_NS (Some r)) :: after ->
            ns_answers_of r = [] ->
            after = [] /\ fst (delegation_walk todo server st) = WalkServer s) /\
        (forall before c d s r c2 after,
            new = before ++ (c, EvQuery d s Q_NS (Some r))
                         :: map (pair c2) (lookups_of (ns_answers_of r) None)
                         ++ after ->
            ns_answers_of r <> [] ->
            (forall x, In x (ns_answers_of r) -> glue_records x r = []) ->
            after = [] /\ fst (delegation_walk todo server st) = WalkNone)).
Proof.
  destruct queries_absent_parts as (P1 & P2 & P3 & P4).
  split; [exact P1|]. split; [exact P2|]. split; [exact P3|].
  split; [exact P4|].
  intros todo server st.
  destruct (delegation_walk todo server st) as [res st'] eqn:Hw.
  apply delegation_walk_Walk in Hw. simpl.
  destruct (Walk_log _ _ _ _ _ Hw) as (new & Hg & Hs & _).
  destruct (Walk_dead_end _ _ _ _ _ Hw) as (new1 & Hg1 & Hd).
  destruct (Walk_unresolved _ _ _ _ _ Hw) as (new2 & Hg2 & Hu).
  rewrite (grown_inj _ _ _ _ Hg1 Hg) in Hd.
  rewrite (grown_inj _ _ _ _ Hg2 Hg) in Hu.
  exists new. split; [assumption|]. split; [|split].
  - intros before c d s rt after E.
    eapply stops_at_failure_last; eauto.
  - intros before c d s r after E Hr.
    destruct (marked_last_only dead_end
                (fun x => exists d s r, x = (cache st', EvQuery d s Q_NS (Some r)) /\
                                        res = WalkServer s)
                new Hd before _ after E Hr) as [Ha (d' & s' & r' & Hx & Hres)].
    injection Hx as _ _ -> _. auto.
  - exact Hu.
Qed.

End AbsentInFull.

(** C7 on the walk for a.b where b is answered without NS record: the
    walk ends there, with the root server, and a.b is not queried. *)
Lemma queries_only_for_absent_witness :
  fst (delegation_walk (suffixes "a.b") ROOT_SERVER st_stop)
    = WalkServer ROOT_SERVER /\
  ns_queries (events (snd (delegation_walk (suffixes "a.b") ROOT_SERVER st_stop)))
    = [("b", ROOT_SERVER)].
Proof.
  destruct (proj2 (proj2 (proj2 (proj2
              (queries_only_for_absent_buckets (net := script_network)))))
              (suffixes "a.b") ROOT_SERVER st_stop)
    as (new & Hg & _ & Hstop & _).
  assert (Hn : new = log (snd (delegation_walk (suffixes "a.b") ROOT_SERVER st_stop)))
    by (symmetry; exact Hg).
  destruct (Hstop [] [] "b" ROOT_SERVER (mkResponse [] [] []) []
              ltac:(rewrite Hn; reflexivity) eq_refl) as [_ Hres].
  split; [exact Hres | reflexivity].
Defined.

(** ** The keys of the cache *)

Lemma rstrip_dot_append_dot (s : string) :
  rstrip_dot (s ++ ".")%string = rstrip_dot s.
Proof. induction s as [|a s IH]; simpl; [reflexivity|]. now rewrite IH. Qed.

Lemma rstrip_dot_idem (s : string) : rstrip_dot (rstrip_dot s) = rstrip_dot s.
Proof.
  induction s as [|a s IH]; simpl; [reflexivity|].
  destruct (rstrip_dot s) as [|b t] eqn:E.
  - destruct (is_dot a) eqn:Ha; simpl; [reflexivity | now rewrite Ha].
  - change (rstrip_dot (String a (String b t)))
      with (match rstrip_dot (String b t) with
            | EmptyString => if is_dot a then EmptyString else String a EmptyString
            | r => String a r
            end).
    rewrite IH. reflexivity.
Qed.

Lemma find_cname_source (l : list RR) (cname : string) :
  find_cname l = Some cname ->
  exists a, In a l /\ rtype a = QTYPE_CNAME /\ cname = rstrip_dot (rdata a).
Proof.
  induction l as [|a l IH]; simpl; intros H; [discriminate|].
  destruct (Z.eqb_spec (rtype a) QTYPE_CNAME) as [E|E].
  - injection H as <-. exists a. auto.
  - destruct (IH H) as (b & Hb & Hrest). exists b. auto.
Qed.

Section KeysInFull.

Context {World : Type} {net : Network World}.

(** C8, as the code has it.  The keys of the cache are the names as
    they are spelled.  The suffixes the walk visits are the name itself,
    last, and parts of it that follow one of its dots, letter for letter
    (no case folding, a trailing dot kept).  [resolve] looks the name up
    as given: with an A bucket under it the bucket is returned; without
    one, whatever other keys hold, it does not return from the cache.
    It stores as given: addresses that answer the A query for the name
    become the A bucket of that very name and no other name's A bucket
    changes, and a delegation is stored under the suffix that was
    queried, the entries of other keys untouched.  Trailing dots are
    stripped from what is read out of responses: each nameserver of the
    NS list and each CNAME target is a record's data without its trailing
    dots, and an A record of the additional section counts as glue for a
    listed nameserver when its owner name without trailing dots is that
    nameserver, which is then a key of the glue mapping. *)
Theorem cache_key_is_the_spelling (domain : string) :
  (exists shorter, suffixes domain = shorter ++ [domain]) /\
  (forall s, In s (suffixes domain) ->
             s = domain \/ exists pre, domain = (pre ++ "." ++ s)%string) /\
  (forall fuel (st : State World) ips,
      cache_A domain (cache st) = Some ips ->
      resolve (S fuel) domain st = (Return (Some ips), st)) /\
  (forall fuel (st : State World) ips,
      cache_A domain (cache st) = None ->
      resolve (S fuel) domain st <> (Return (Some ips), st)) /\
  (forall fuel (st : State World) server st1 r st2,
      cache_A domain (cache st) = None ->
      delegation_walk (suffixes domain) ROOT_SERVER st = (WalkServer server, st1) ->
      get_dns_record domain server Q_A st1 = (Some r, st2) ->
      find_cname (answers r) = None ->
      ip_addresses_of (answers r) <> [] ->
      fst (resolve (S fuel) domain st)
      = Return (Some (ip_addresses_of (answers r))) /\
      forall x,
        cache_A x (cache (snd (resolve (S fuel) domain st))) =
        if String.eqb domain x then Some (ip_addresses_of (answers r))
        else cache_A x (cache st)) /\
  (forall curr rest server (st : State World) r st1,
      cache_NS curr (cache st) = None ->
      get_dns_record curr server Q_NS st = (Some r, st1) ->
      ns_answers_of r <> [] ->
      cache_NS curr (cache (snd (delegation_walk (curr :: rest) server st)))
      = Some (ns_answers_of r) /\
      forall other,
        other <> curr ->
        cache_entry other
          (cache (store_delegation curr (ns_answers_of r)
                    (ns_ips_of (ns_answers_of r) r) st1))
        = cache_entry other (cache st)) /\
  (forall s, rstrip_dot (s ++ ".")%string = rstrip_dot s) /\
  (forall r ns,
      In ns (ns_answers_of r) ->
      (exists a, In a (answers r ++ authority r) /\ rtype a = QTYPE_NS /\
                 ns = rstrip_dot (rdata a)) /\
      rstrip_dot ns = ns) /\
  (forall l cname,
      find_cname l = Some cname ->
      (exists a, In a l /\ rtype a = QTYPE_CNAME /\ cname = rstrip_dot (rdata a)) /\
      rstrip_dot cname = cname) /\
  (forall names r a,
      In a (additional r) ->
      rtype a = QTYPE_A ->
      In (rstrip_dot (rname a)) names ->
      Dict.get (rstrip_dot (rname a)) (ns_ips_of names r) <> None).
Proof.
  split; [apply suffixes_last|].
  split.
  { intros s Hs. rewrite suffixes_proper, in_app_iff in Hs.
    destruct Hs as [Hs|[Hs|[]]]; [right | left; now symmetry].
    now apply in_proper_suffixes. }
  split.
  { intros fuel st ips H. simpl. now rewrite H. }
  split.
  { intros fuel st ips HA Hr.
    destruct (delegation_walk (suffixes domain) ROOT_SERVER st)
      as [[server| |] st1] eqn:Hw.
    - destruct queries_absent_parts as (_ & _ & _ & P4).
      destruct (P4 fuel domain st server st1 HA Hw)
        as (result & out & st' & later & Hr' & Hg).
      rewrite Hr in Hr'. injection Hr' as <- <-.
      apply delegation_walk_Walk in Hw.
      destruct (Walk_log _ _ _ _ _ Hw) as (wnew & Hgw & _).
      pose proof (grown_inj _ _ _ _ (grown_trans _ _ _ _ _ Hgw Hg) (grown_refl st))
        as E.
      destruct wnew; discriminate E.
    - simpl in Hr. rewrite HA, Hw in Hr. discriminate.
    - simpl in Hr. rewrite HA, Hw in Hr. discriminate. }
  split.
  { intros fuel st server st1 r st2 HA Hw Hq Hc Hne.
    assert (Hr : resolve (S fuel) domain st =
                 (Return (Some (ip_addresses_of (answers r))),
                  store_addresses domain (ip_addresses_of (answers r)) st2)).
    { simpl. rewrite HA, Hw, Hq, Hc.
      destruct (ip_addresses_of (answers r)); [contradiction | reflexivity]. }
    rewrite Hr. split; [reflexivity|]. intros x. simpl.
    rewrite cache_A_store_A.
    destruct (String.eqb domain x); [reflexivity|].
    apply get_dns_record_grown in Hq. destruct Hq as [-> _].
    apply delegation_walk_Walk in Hw.
    apply (Walk_keeps_A _ _ _ _ _ x Hw). }
  split.
  { intros curr rest server st r st1 Hns Hq Hne. split.
    - destruct (delegation_walk (curr :: rest) server st) as [res st'] eqn:Hw.
      apply (delegation_stored curr rest server st r st1 res st' Hns Hq Hne Hw).
    - intros other Hother. simpl.
      rewrite !cache_entry_store_other by congruence.
      apply get_dns_record_grown in Hq. now destruct Hq as [-> _]. }
  split; [exact rstrip_dot_append_dot|].
  split.
  { intros r ns Hin. unfold ns_answers_of in Hin. apply in_map_iff in Hin.
    destruct Hin as (a & <- & Ha). apply filter_In in Ha. destruct Ha as [Ha Ht].
    split; [|apply rstrip_dot_idem].
    exists a. split; [assumption|]. split; [now apply Z.eqb_eq | reflexivity]. }
  split.
  { intros l cname H. destruct (find_cname_source _ _ H) as (a & Ha & Ht & ->).
    split; [now exists a | apply rstrip_dot_idem]. }
  intros names r a Ha Ht Hin.
  rewrite (glue_of_listed _ r _ Hin).
  assert (Hg : In a (glue_records (rstrip_dot (rname a)) r)).
  { unfold glue_records. apply filter_In. split; [assumption|].
    rewrite Ht, String.eqb_refl. reflexivity. }
  apply in_rev in Hg.
  destruct (rev (glue_records (rstrip_dot (rname a)) r)); [destruct Hg | discriminate].
Qed.

End KeysInFull.

(** C8 for Example.COM. where the addresses of example.com are cached:
    the answer is stored under Example.COM. as spelled and the bucket of
    example.com stays as it was. *)
Lemma cache_key_witness :
  fst (resolve 1 "Example.COM." st_spelled) = Return (Some ["6.6.6.6"]) /\
  cache_A "Example.COM." (cache (snd (resolve 1 "Example.COM." st_spelled)))
    = Some ["6.6.6.6"] /\
  cache_A "example.com" (cache (snd (resolve 1 "Example.COM." st_spelled)))
    = Some ["1.2.3.4"].
Proof.
  destruct (cache_key_is_the_spelling (net := script_network) "Example.COM.")
    as (_ & _ & _ & _ & Hstore & _).
  destruct (Hstore 0%nat st_spelled ROOT_SERVER
              (snd (delegation_walk (suffixes "Example.COM.") ROOT_SERVER st_spelled))
              (mkResponse [mkRR "Example.COM." QTYPE_A "6.6.6.6"] [] [])
              (snd (get_dns_record "Example.COM." ROOT_SERVER Q_A
                      (snd (delegation_walk (suffixes "Example.COM.") ROOT_SERVER
                              st_spelled))))
              ltac:(reflexivity) ltac:(reflexivity) ltac:(reflexivity)
              ltac:(reflexivity) ltac:(discriminate)) as [Hout Hkeys].
  split; [exact Hout|].
  split; [exact (Hkeys "Example.COM.") | exact (Hkeys "example.com")].
Defined.
